(** * Caesium: the assembly generator of [caesium/piler.py]

    A shallow embedding of the register allocator and of the AST visitor that
    lowers one Python function to NASM text, followed by the properties of
    the lowering.  Python objects that are mutated in place (the allocator,
    the generator) become records threaded through a state-and-exception
    monad; the dictionary [used_xmm] is a finite map with string keys. *)

From Stdlib Require Import ZArith HexString Ascii.
From stdpp Require Import gmap strings list pretty.

Set Warnings "-register-all".
#[local] Unset Elimination Schemes.

(** ** Python values met by the generator *)

(** A Python float as the generator observes it: [str(f)] and the 64 bits
    that [struct.pack("<d", f)] produces. *)
Record pyfloat := PyFloat { float_str : string; float_bits : Z }.

(** The value held by an [ast.Constant] node. *)
Inductive constant :=
| CInt (n : Z)
| CFloat (f : pyfloat)
| CBool (b : bool)
| CStr (s : string)
| CNone.

Inductive exception :=
| RuntimeError (msg : string)
| NotImplementedError (msg : string)
| ValueError
| IndexError
| AttributeError
| StructError.

Inductive result (A : Type) :=
| Ok (a : A)
| Raise (e : exception).
Arguments Ok {A} a.
Arguments Raise {A} e.

(** The text of [str(value)], which is also what an f-string placeholder
    prints when printing succeeds; [py_format] below is the printing
    itself, which CPython refuses for a very long int. *)
Definition py_str (v : constant) : string :=
  match v with
  | CInt n => pretty n
  | CFloat f => float_str f
  | CBool true => "True"
  | CBool false => "False"
  | CStr s => s
  | CNone => "None"
  end.

(** The number of decimal digits above which CPython refuses to print an
    int ([sys.int_info.default_max_str_digits]). *)
Definition int_max_str_digits : Z := 4300.

Definition exceeds_str_digits (v : constant) : bool :=
  match v with
  | CInt n => (10 ^ int_max_str_digits <=? Z.abs n)%Z
  | _ => false
  end.

(** Formatting a value in an f-string: the text of [py_str], or
    [ValueError] for an int of more than 4300 digits. *)
Definition py_format (v : constant) : result string :=
  if exceeds_str_digits v then Raise ValueError else Ok (py_str v).

(** Conversion of a Python int to a binary64, as [struct.pack("<d", n)]
    performs it: round to nearest, ties to even; [None] when the magnitude
    is beyond the largest double, which [struct.pack] reports as
    [struct.error]. *)
Definition double_of_int (n : Z) : option Z :=
  if (n =? 0)%Z then Some 0%Z
  else
    let a := Z.abs n in
    let e := Z.log2 a in
    let sign := if (n <? 0)%Z then (2 ^ 63)%Z else 0%Z in
    let '(m, e') :=
      if (e <=? 52)%Z then ((a * 2 ^ (52 - e))%Z, e)
      else
        let sh := (e - 52)%Z in
        let q := (a / 2 ^ sh)%Z in
        let r := (a mod 2 ^ sh)%Z in
        let half := (2 ^ (sh - 1))%Z in
        let q' := if ((half <? r) || ((r =? half) && Z.odd q))%Z
                  then (q + 1)%Z else q in
        if (q' =? 2 ^ 53)%Z then ((2 ^ 52)%Z, (e + 1)%Z) else (q', e) in
    if (1023 <? e')%Z then None
    else Some (sign + (e' + 1023) * 2 ^ 52 + (m - 2 ^ 52))%Z.

(** [struct.unpack("<Q", struct.pack("<d", f))[0]]: the bit pattern. *)
Definition double_bits (v : constant) : result Z :=
  match v with
  | CInt n =>
      match double_of_int n with
      | Some b => Ok b
      | None => Raise StructError
      end
  | CFloat f => Ok (float_bits f)
  | CBool true => Ok 4607182418800017408%Z
  | CBool false => Ok 0%Z
  | CStr _ | CNone => Raise StructError
  end.

(** ** Utilities *)

Definition float_to_hex (f : constant) : result string :=
  match double_bits f with
  | Ok b => Ok (HexString.of_Z b)
  | Raise e => Raise e
  end.

(** [align(value, alignment)], on Python's unbounded two's-complement
    integers. *)
Definition align (value alignment : Z) : Z :=
  Z.land (value + (alignment - 1)) (Z.lnot (alignment - 1)).

(** [range(start, stop, step)], as the list of the values it yields;
    a zero step raises [ValueError]. *)
Definition py_range (start stop step : Z) : result (list Z) :=
  if (step =? 0)%Z then Raise ValueError
  else
    let count :=
      if (0 <? step)%Z then ((stop - start + step - 1) / step)%Z
      else ((start - stop - step - 1) / (- step))%Z in
    Ok (map (λ k : nat, (start + Z.of_nat k * step)%Z)
          (seq 0 (Z.to_nat count))).

(** A slice bound, clamped to the list as Python does. *)
Definition slice_bound (len : nat) (i : Z) : nat :=
  if (i <? 0)%Z then Z.to_nat (i + Z.of_nat len)
  else Nat.min (Z.to_nat i) len.

(** [lst[i:j]] *)
Definition py_slice {A} (lst : list A) (i j : Z) : list A :=
  let lo := slice_bound (length lst) i in
  let hi := slice_bound (length lst) j in
  take (hi - lo) (drop lo lst).

(** [chunk_list(lst, n)], as the list of the chunks the generator yields
    when it is run to its end. *)
Definition chunk_list {A} (lst : list A) (n : Z) : result (list (list A)) :=
  match py_range 0 (Z.of_nat (length lst)) n with
  | Raise e => Raise e
  | Ok starts => Ok (map (λ i, py_slice lst i (i + n)) starts)
  end.

(** ** Registers *)

Definition XMM_REGS : list string :=
  map (λ i : nat, "xmm" +:+ pretty i) (seq 0 16).

Definition GENERAL_REGS : list string :=
  ["rdi"; "rsi"; "rdx"; "rcx"; "r8"; "r9"].

Module RegisterAllocator.

Record t := Build { free_xmm : list string; used_xmm : gmap string string }.

Definition init : t := {| free_xmm := XMM_REGS; used_xmm := ∅ |}.

Definition allocate_xmm (name : string) (self : t) : result (string * t) :=
  match used_xmm self !! name with
  | Some reg => Ok (reg, self)
  | None =>
      match free_xmm self with
      | [] => Raise (RuntimeError "Ran out of XMM registers!")
      | reg :: rest =>
          Ok (reg, {| free_xmm := rest;
                      used_xmm := <[name := reg]> (used_xmm self) |})
      end
  end.

Definition free_all (self : t) : t :=
  {| free_xmm := XMM_REGS; used_xmm := ∅ |}.

End RegisterAllocator.

(** ** The abstract syntax tree *)

Inductive operator := Add | Sub | Mult | Div | OtherOp (cls : string).

(** The node classes the generator names, and [Other] for every class it
    does not name, with the child nodes in field order.  An [async def] is
    such a class too; it is kept apart because [transpile_to_asm] reads its
    name and parameters: its children are, in field order, the annotations
    and defaults of its parameters, the statements of its body, its
    decorators and its return annotation. *)
Inductive node :=
| FunctionDef (name : string) (params : list string) (body : list node)
| Return (value : option node)
| Assign (targets : list node) (value : node)
| For (target iter : node) (body orelse : list node)
| If (test : node) (body orelse : list node)
| BinOp (left : node) (op : operator) (right : node)
| Name (id : string)
| Constant (value : constant)
| Call (func : node) (args keywords : list node)
| Other (cls : string) (children : list node)
| AsyncFunctionDef (name : string) (params : list string)
    (children : list node).

Definition class_name (n : node) : string :=
  match n with
  | FunctionDef _ _ _ => "FunctionDef"
  | Return _ => "Return"
  | Assign _ _ => "Assign"
  | For _ _ _ _ => "For"
  | If _ _ _ => "If"
  | BinOp _ _ _ => "BinOp"
  | Name _ => "Name"
  | Constant _ => "Constant"
  | Call _ _ _ => "Call"
  | Other cls _ => cls
  | AsyncFunctionDef _ _ _ => "AsyncFunctionDef"
  end.

Definition op_class_name (op : operator) : string :=
  match op with
  | Add => "Add" | Sub => "Sub" | Mult => "Mult" | Div => "Div"
  | OtherOp cls => cls
  end.

(** ** The generator state and its monad *)

Record ASMGenerator := MkGen {
  func_name : string;
  args : list string;
  lines : list string;
  reg_alloc : RegisterAllocator.t;
  loop_count : nat
}.

Definition ASMGenerator_init (func_name : string) (args : list string)
  : ASMGenerator :=
  {| func_name := func_name; args := args; lines := [];
     reg_alloc := RegisterAllocator.init; loop_count := 0 |}.

(** A method of the generator: it returns a value and the mutated object,
    or raises. *)
Definition M (A : Type) : Type := ASMGenerator → result (A * ASMGenerator).

Definition ret {A} (a : A) : M A := λ g, Ok (a, g).

Definition bind {A B} (m : M A) (k : A → M B) : M B :=
  λ g, match m g with
       | Ok (a, g') => k a g'
       | Raise e => Raise e
       end.

Definition raise {A} (e : exception) : M A := λ _, Raise e.

#[global] Instance M_ret : MRet M := @ret.
#[global] Instance M_bind : MBind M := λ A B k m, bind m k.

(** [self.func_name] *)
Definition get_func_name : M string := λ g, Ok (func_name g, g).

(** [self.lines.append(line)] *)
Definition emit (line : string) : M unit :=
  λ g, Ok (tt, {| func_name := func_name g; args := args g;
                  lines := lines g ++ [line];
                  reg_alloc := reg_alloc g; loop_count := loop_count g |}).

(** [self.reg_alloc.allocate_xmm(name)] *)
Definition allocate (name : string) : M string :=
  λ g, match RegisterAllocator.allocate_xmm name (reg_alloc g) with
       | Ok (reg, ra) =>
           Ok (reg, {| func_name := func_name g; args := args g;
                       lines := lines g; reg_alloc := ra;
                       loop_count := loop_count g |})
       | Raise e => Raise e
       end.

(** [self.loop_count += 1; loop_id = self.loop_count] *)
Definition next_loop_id : M nat :=
  λ g, Ok (S (loop_count g),
           {| func_name := func_name g; args := args g; lines := lines g;
              reg_alloc := reg_alloc g; loop_count := S (loop_count g) |}).

(** [lst.index(x)]: the first position of [x], [ValueError] when absent. *)
Fixpoint list_index (x : string) (l : list string) : option nat :=
  match l with
  | [] => None
  | y :: l' => if decide (y = x) then Some 0
               else S <$> list_index x l'
  end.

(** ** Prologue and epilogue *)

Definition generate_prologue : M unit :=
  name ← get_func_name;
  emit "section .text" ;;
  emit ("global " +:+ name) ;;
  emit (name +:+ ":") ;;
  emit "    ; Function prologue" ;;
  emit "    push rbp" ;;
  emit "    mov rbp, rsp" ;;
  emit "    ; Assume float args in rdi, rsi, rdx, rcx, r8, r9".

Definition generate_epilogue : M unit :=
  emit "    ; Function epilogue" ;;
  emit "    pop rbp" ;;
  emit "    ret".

(** ** Node visitors *)

Definition visit_Name (id : string) : M string :=
  λ g, match list_index id (args g) with
       | None => Raise ValueError
       | Some idx =>
           match GENERAL_REGS !! idx with
           | None => Raise IndexError
           | Some reg =>
               (xmm ← allocate id;
                emit ("    movq " +:+ xmm +:+ ", " +:+ reg
                      +:+ "    ; Load argument " +:+ id) ;;
                ret xmm) g
           end
       end.

Definition visit_Constant (value : constant) : M string :=
  match py_format value with
  | Raise e => raise e
  | Ok text =>
      xmm ← allocate ("const_" +:+ text);
      match float_to_hex value with
      | Raise e => raise e
      | Ok hexval =>
          emit ("    mov rax, " +:+ hexval +:+ "    ; Load constant "
                +:+ text) ;;
          emit ("    movq " +:+ xmm +:+ ", rax") ;;
          ret xmm
      end
  end.

Definition binop_to_asm (op : operator) (lhs rhs : string) : M string :=
  match op with
  | Add => ret ("    addsd " +:+ lhs +:+ ", " +:+ rhs +:+ "    ; add")
  | Sub => ret ("    subsd " +:+ lhs +:+ ", " +:+ rhs +:+ "    ; sub")
  | Mult => ret ("    mulsd " +:+ lhs +:+ ", " +:+ rhs +:+ "    ; mul")
  | Div => ret ("    divsd " +:+ lhs +:+ ", " +:+ rhs +:+ "    ; div")
  | OtherOp cls =>
      raise (NotImplementedError
               ("Operator <class 'ast." +:+ cls +:+ "'> not supported"))
  end.

(** The body of [visit_BinOp], over the function that evaluates operands. *)
Definition visit_BinOp_with (evaluate : node → M string)
    (lhs : node) (op : operator) (rhs : node) : M unit :=
  l ← evaluate lhs;
  r ← evaluate rhs;
  op_line ← binop_to_asm op l r;
  emit op_line.

Fixpoint evaluate_node (n : node) : M string :=
  match n with
  | BinOp lhs op rhs =>
      visit_BinOp_with evaluate_node lhs op rhs ;;
      allocate "tmp"
  | Name id => visit_Name id
  | Constant value => visit_Constant value
  | _ =>
      raise (NotImplementedError
               ("Node <class 'ast." +:+ class_name n +:+ "'> not supported"))
  end.

Definition visit_BinOp : node → operator → node → M unit :=
  visit_BinOp_with evaluate_node.

(** The trip-count operand of a counted loop. *)
Definition range_operand (range_arg : node) : string :=
  match range_arg with
  | Name id => id
  | Constant value => py_str value
  | _ => "n"
  end.

(** Formatting the trip-count operand into the [mov rcx] line. *)
Definition format_operand (range_arg : node) : result string :=
  match range_arg with
  | Constant value => py_format value
  | _ => Ok (range_operand range_arg)
  end.

(** [visit_For], over the lowering of the statements of the loop body. *)
Definition visit_For_with (lower_body : M unit) (target iter : node)
  : M unit :=
  loop_id ← next_loop_id;
  emit ("    ; Begin loop " +:+ pretty loop_id) ;;
  match target with
  | Name _ =>
      match iter with
      | Call (Name f) call_args _ =>
          if decide (f = "range") then
            match call_args with
            | [] => raise IndexError
            | range_arg :: _ =>
                match format_operand range_arg with
                | Raise e => raise e
                | Ok n_var =>
                    emit ("    mov rcx, " +:+ n_var
                          +:+ "    ; loop counter") ;;
                    emit ("loop_" +:+ pretty loop_id +:+ ":") ;;
                    lower_body ;;
                    emit "    dec rcx" ;;
                    emit ("    jnz loop_" +:+ pretty loop_id) ;;
                    emit ("    ; End loop " +:+ pretty loop_id)
                end
            end
          else emit ("    ; End loop " +:+ pretty loop_id)
      | Call _ _ _ => raise AttributeError
      | _ => emit ("    ; End loop " +:+ pretty loop_id)
      end
  | _ => raise AttributeError
  end.

(** [NodeVisitor.visit]: dispatch on the node class, and [generic_visit]
    (every child node, in field order) for a class without a visitor. *)
Fixpoint visit (n : node) : M unit :=
  let visit_each :=
    fix visit_each (l : list node) : M unit :=
      match l with
      | [] => ret tt
      | stmt :: l' => visit stmt ;; visit_each l'
      end in
  match n with
  | FunctionDef _ _ body =>
      generate_prologue ;; visit_each body ;; generate_epilogue
  | Return None => raise AttributeError
  | Return (Some value) => visit value
  | BinOp lhs op rhs => visit_BinOp lhs op rhs
  | Name id => visit_Name id ;; ret tt
  | Constant value => visit_Constant value ;; ret tt
  | For target iter body _ => visit_For_with (visit_each body) target iter
  | Assign targets value => visit_each targets ;; visit value
  | If test body orelse =>
      visit test ;; visit_each body ;; visit_each orelse
  | Call func call_args keywords =>
      visit func ;; visit_each call_args ;; visit_each keywords
  | Other _ children => visit_each children
  | AsyncFunctionDef _ _ children => visit_each children
  end.

(** [for stmt in stmts: self.visit(stmt)] *)
Fixpoint visit_each (l : list node) : M unit :=
  match l with
  | [] => ret tt
  | stmt :: l' => visit stmt ;; visit_each l'
  end.

Definition visit_For (target iter : node) (body : list node) : M unit :=
  visit_For_with (visit_each body) target iter.

(** ** Main transpile API *)

(** The separator ["\n"]. *)
Definition newline : string := String (Ascii.ascii_of_nat 10) EmptyString.

(** [transpile_to_asm] up to the text written to the [.asm] file, for the
    first statement of the parsed source: a [def] or an [async def] has the
    [name] and the [args.args] that are read; any other statement lacks one
    of them. *)
Definition transpile_to_asm (func_node : node) : result string :=
  match func_node with
  | FunctionDef name params _ | AsyncFunctionDef name params _ =>
      match visit func_node (ASMGenerator_init name params) with
      | Ok (_, gen) => Ok (String.concat newline (lines gen))
      | Raise e => Raise e
      end
  | _ => Raise AttributeError
  end.

(** * Vocabulary of the properties *)

(** ** Induction over the syntax tree, through its lists of children *)

Section node_induction.
Variable P : node → Prop.
Hypothesis HFunctionDef :
  ∀ name params body, Forall P body → P (FunctionDef name params body).
Hypothesis HReturnNone : P (Return None).
Hypothesis HReturn : ∀ value, P value → P (Return (Some value)).
Hypothesis HAssign :
  ∀ targets value, Forall P targets → P value → P (Assign targets value).
Hypothesis HFor :
  ∀ target iter body orelse,
    P target → P iter → Forall P body → Forall P orelse →
    P (For target iter body orelse).
Hypothesis HIf :
  ∀ test body orelse,
    P test → Forall P body → Forall P orelse → P (If test body orelse).
Hypothesis HBinOp : ∀ lhs op rhs, P lhs → P rhs → P (BinOp lhs op rhs).
Hypothesis HName : ∀ id, P (Name id).
Hypothesis HConstant : ∀ value, P (Constant value).
Hypothesis HCall :
  ∀ func call_args keywords,
    P func → Forall P call_args → Forall P keywords →
    P (Call func call_args keywords).
Hypothesis HOther : ∀ cls children, Forall P children → P (Other cls children).
Hypothesis HAsyncFunctionDef :
  ∀ name params children,
    Forall P children → P (AsyncFunctionDef name params children).

Fixpoint node_ind (n : node) : P n :=
  let all :=
    fix all (l : list node) : Forall P l :=
      match l with
      | [] => Forall_nil_2 P
      | x :: l' => Forall_cons_2 P x l' (node_ind x) (all l')
      end in
  match n with
  | FunctionDef name params body => HFunctionDef name params body (all body)
  | Return None => HReturnNone
  | Return (Some value) => HReturn value (node_ind value)
  | Assign targets value =>
      HAssign targets value (all targets) (node_ind value)
  | For target iter body orelse =>
      HFor target iter body orelse (node_ind target) (node_ind iter)
        (all body) (all orelse)
  | If test body orelse =>
      HIf test body orelse (node_ind test) (all body) (all orelse)
  | BinOp lhs op rhs => HBinOp lhs op rhs (node_ind lhs) (node_ind rhs)
  | Name id => HName id
  | Constant value => HConstant value
  | Call func call_args keywords =>
      HCall func call_args keywords (node_ind func) (all call_args)
        (all keywords)
  | Other cls children => HOther cls children (all children)
  | AsyncFunctionDef name params children =>
      HAsyncFunctionDef name params children (all children)
  end.
End node_induction.

(** ** The register pool *)

Import RegisterAllocator.

(** The pool is partitioned: the free sequence has no repetition, no
    register bound to a key is also free, and no register is bound to two
    keys. *)
Record pool_inv (ra : RegisterAllocator.t) : Prop := PoolInv {
  inv_free_nodup : NoDup (free_xmm ra);
  inv_disjoint : ∀ key reg, used_xmm ra !! key = Some reg → reg ∉ free_xmm ra;
  inv_injective :
    ∀ k1 k2 reg,
      used_xmm ra !! k1 = Some reg → used_xmm ra !! k2 = Some reg → k1 = k2
}.

(** Every register of the file is either free or bound. *)
Definition pool_count (ra : RegisterAllocator.t) : Prop :=
  length (free_xmm ra) + size (used_xmm ra) = length XMM_REGS.

Definition pool_exhausted : exception :=
  RuntimeError "Ran out of XMM registers!".

(** ** What a visitor may change in the generator *)

(** [extends g g'] relates the generator before and after a method that
    returned: the signature is kept, lines are only appended, the loop
    counter does not decrease, bindings of the pool are kept, and the pool
    invariants carry over. *)
Record extends (g g' : ASMGenerator) : Prop := Extends {
  ext_func_name : func_name g' = func_name g;
  ext_args : args g' = args g;
  ext_lines : lines g `prefix_of` lines g';
  ext_loop_count : loop_count g ≤ loop_count g';
  ext_used : used_xmm (reg_alloc g) ⊆ used_xmm (reg_alloc g');
  ext_inv : pool_inv (reg_alloc g) → pool_inv (reg_alloc g');
  ext_count : pool_count (reg_alloc g) → pool_count (reg_alloc g')
}.

Definition preserves {A} (m : M A) : Prop :=
  ∀ g a g', m g = Ok (a, g') → extends g g'.

(** ** The keys a lowering asks the pool for *)

(** The keys requested by [evaluate_node n], in request order. *)
Fixpoint evaluate_keys (n : node) : list string :=
  match n with
  | BinOp lhs _ rhs => evaluate_keys lhs ++ evaluate_keys rhs ++ ["tmp"]
  | Name id => [id]
  | Constant value => ["const_" +:+ py_str value]
  | _ => []
  end.

(** The keys requested by a run of [visit n] that returns, in request
    order: the traversal of [visit] with every allocation recorded. *)
Fixpoint visit_keys (n : node) : list string :=
  match n with
  | FunctionDef _ _ body => flat_map visit_keys body
  | Return None => []
  | Return (Some value) => visit_keys value
  | BinOp lhs _ rhs => evaluate_keys lhs ++ evaluate_keys rhs
  | Name id => [id]
  | Constant value => ["const_" +:+ py_str value]
  | For (Name _) (Call (Name f) (_ :: _) _) body _ =>
      if decide (f = "range") then flat_map visit_keys body else []
  | For _ _ _ _ => []
  | Assign targets value => flat_map visit_keys targets ++ visit_keys value
  | If test body orelse =>
      visit_keys test ++ flat_map visit_keys body ++ flat_map visit_keys orelse
  | Call func call_args keywords =>
      visit_keys func ++ flat_map visit_keys call_args
      ++ flat_map visit_keys keywords
  | Other _ children => flat_map visit_keys children
  | AsyncFunctionDef _ _ children => flat_map visit_keys children
  end.

(** The number of distinct keys a function needs. *)
Definition distinct_keys (n : node) : nat :=
  size (list_to_set (visit_keys n) : gset string).

(** ** The functions the generator lowers without a grammar error *)

Definition supported_op (op : operator) : bool :=
  match op with
  | OtherOp _ => false
  | _ => true
  end.

(** Expressions: parameters that have an argument register, literals that
    have a bit pattern, and the four operators over them. *)
Fixpoint supported_expr (params : list string) (n : node) : bool :=
  match n with
  | BinOp lhs op rhs =>
      supported_expr params lhs && supported_op op
      && supported_expr params rhs
  | Name id =>
      match list_index id params with
      | Some idx => bool_decide (idx < length GENERAL_REGS)
      | None => false
      end
  | Constant value =>
      match float_to_hex value with
      | Ok _ => true
      | Raise _ => false
      end
  | _ => false
  end.

Definition supported_target (params : list string) (n : node) : bool :=
  match n with
  | Name _ => supported_expr params n
  | _ => false
  end.

(** Statements: return of an expression, assignment of an expression to
    parameters, and the counted loop, with a trip count that can be
    printed, over supported statements. *)
Fixpoint supported_stmt (params : list string) (n : node) : bool :=
  match n with
  | Return (Some value) => supported_expr params value
  | Assign targets value =>
      forallb (supported_target params) targets
      && supported_expr params value
  | For (Name _) (Call (Name f) (range_arg :: _) _) body _ =>
      bool_decide (f = "range")
      && match format_operand range_arg with
         | Ok _ => true
         | Raise _ => false
         end
      && forallb (supported_stmt params) body
  | _ => false
  end.

Definition supported (func_node : node) : bool :=
  match func_node with
  | FunctionDef _ params body => forallb (supported_stmt params) body
  | _ => false
  end.

(** ** Outcomes of a lowering *)

(** [requests K m]: when [m] returns, every key of [K] is bound. *)
Definition requests {A} (K : list string) (m : M A) : Prop :=
  ∀ g a g', m g = Ok (a, g') →
    ∀ key, key ∈ K → is_Some (used_xmm (reg_alloc g') !! key).

(** [runs_within params K m]: from a generator for [params] whose pool is
    fully accounted for, [m] returns when the keys of [K] fit in the pool
    next to those already bound, binding exactly those, and raises the
    pool-exhaustion error otherwise. *)
Definition runs_within {A} (params : list string) (K : gset string) (m : M A)
  : Prop :=
  ∀ g, args g = params → pool_count (reg_alloc g) →
    if decide (size (dom (used_xmm (reg_alloc g)) ∪ K) ≤ length XMM_REGS)
    then ∃ a g', m g = Ok (a, g') ∧
                 dom (used_xmm (reg_alloc g')) =
                 dom (used_xmm (reg_alloc g)) ∪ K
    else m g = Raise pool_exhausted.

(** ** Reading the text of a float back *)

(** [pyfloat] keeps the text and the bits of a float side by side.  For a
    float that Python parsed from a literal the two belong together: the
    text is the [repr] of the double, which always has a point, an exponent
    or the letters of [inf], and [float(text)] is that double again.  The
    definitions below read such a text back, so that this can be checked
    of a given [pyfloat]. *)

Definition is_digit (c : ascii) : bool :=
  (48 <=? nat_of_ascii c) && (nat_of_ascii c <=? 57).

Definition digit_value (c : ascii) : Z := (Z.of_nat (nat_of_ascii c) - 48)%Z.

(** The digits at the head of a text: their value after [acc], their
    number after [count], and the text that follows them. *)
Fixpoint read_digits (s : string) (acc : Z) (count : nat)
  : Z * nat * string :=
  match s with
  | String c s' =>
      if is_digit c
      then read_digits s' (10 * acc + digit_value c)%Z (S count)
      else (acc, count, s)
  | EmptyString => (acc, count, s)
  end.

(** The bit pattern, without the sign, of the double nearest to the
    positive rational [num / den], ties to even; infinity beyond the
    largest double. *)
Definition double_of_ratio (num den : Z) : Z :=
  let e0 := (Z.log2 num - Z.log2 den)%Z in
  let reaches :=
    if (0 <=? e0)%Z then (den * 2 ^ e0 <=? num)%Z
    else (den <=? num * 2 ^ (- e0))%Z in
  let e := if reaches then e0 else (e0 - 1)%Z in
  let qe := Z.max (e - 52) (-1074) in
  let '(n, d) :=
    if (0 <=? qe)%Z then (num, (den * 2 ^ qe)%Z)
    else ((num * 2 ^ (- qe))%Z, den) in
  let q := (n / d)%Z in
  let r := (n mod d)%Z in
  let q' := if ((d <? 2 * r) || ((2 * r =? d) && Z.odd q))%Z
            then (q + 1)%Z else q in
  Z.min ((qe + 1074) * 2 ^ 52 + q') (2047 * 2 ^ 52).

(** The exponent part of a float text: nothing, or [e], a sign and
    digits. *)
Definition read_exponent (s : string) : option Z :=
  match s with
  | EmptyString => Some 0%Z
  | String c s' =>
      if Ascii.eqb c "e" then
        let '(sign, digits) :=
          match s' with
          | String c' s'' =>
              if Ascii.eqb c' "-" then ((-1)%Z, s'')
              else if Ascii.eqb c' "+" then (1%Z, s'')
              else (1%Z, s')
          | EmptyString => (1%Z, s')
          end in
        match read_digits digits 0 0 with
        | (_, O, _) => None
        | (value, _, EmptyString) => Some (sign * value)%Z
        | _ => None
        end
      else None
  end.

(** [float(text)] as a bit pattern, for a text of the shapes [repr] gives
    a float that is not a nan: digits, then maybe a point and digits, then
    maybe an exponent; or [inf]; each maybe after a minus sign. *)
Definition float_of_text (s : string) : option Z :=
  let '(sign, body) :=
    match s with
    | String c s' => if Ascii.eqb c "-" then ((2 ^ 63)%Z, s') else (0%Z, s)
    | EmptyString => (0%Z, s)
    end in
  if String.eqb body "inf" then Some (sign + 2047 * 2 ^ 52)%Z
  else
    match read_digits body 0 0 with
    | (_, O, _) => None
    | (int_part, _, rest) =>
        let '(mantissa, fraction_digits, rest') :=
          match rest with
          | String c r =>
              if Ascii.eqb c "." then read_digits r int_part 0
              else (int_part, 0, rest)
          | EmptyString => (int_part, 0, rest)
          end in
        match read_exponent rest' with
        | None => None
        | Some exponent =>
            let e := (exponent - Z.of_nat fraction_digits)%Z in
            if (mantissa =? 0)%Z then Some sign
            else Some (sign + double_of_ratio
                                (mantissa * 10 ^ Z.max e 0)
                                (10 ^ Z.max (- e) 0))%Z
        end
    end.

(** The texts made of digits and minus signs only, as those of ints are. *)
Fixpoint int_text (s : string) : bool :=
  match s with
  | String c s' => (is_digit c || Ascii.eqb c "-") && int_text s'
  | EmptyString => true
  end.

(** A float whose text is the [repr] of its bit pattern: it reads back as
    the pattern and it does not look like an int. *)
Definition float_repr_ok (f : pyfloat) : bool :=
  negb (int_text (float_str f))
  && match float_of_text (float_str f) with
     | Some bits => (bits =? float_bits f)%Z
     | None => false
     end.

(** The literal values whose text and bit pattern belong together. *)
Definition literal_ok (v : constant) : bool :=
  match v with
  | CFloat f => float_repr_ok f
  | _ => true
  end.

(** ** Example programs *)

(** A function over seventeen distinct literals:
    [def f(a): return a + 1 + 2 + ... + 17]. *)
Definition sum_of_17 : node :=
  FunctionDef "f" ["a"]
    [Return (Some (foldl (λ acc i, BinOp acc Add (Constant (CInt i)))
                     (Name "a")
                     [1; 2; 3; 4; 5; 6; 7; 8; 9; 10; 11; 12; 13; 14; 15; 16;
                      17]%Z))].

(** The same sum over a name that is no parameter:
    [def f(a): return b + 1 + 2 + ... + 17]. *)
Definition sum_of_17_unbound : node :=
  FunctionDef "f" ["a"]
    [Return (Some (foldl (λ acc i, BinOp acc Add (Constant (CInt i)))
                     (Name "b")
                     [1; 2; 3; 4; 5; 6; 7; 8; 9; 10; 11; 12; 13; 14; 15; 16;
                      17]%Z))].

(** The float [1.0]. *)
Definition float_one : pyfloat :=
  {| float_str := "1.0"; float_bits := 0x3ff0000000000000 |}.

(** The floats [1.5] and [2.5]. *)
Definition float_1_5 : pyfloat :=
  {| float_str := "1.5"; float_bits := 0x3ff8000000000000 |}.

Definition float_2_5 : pyfloat :=
  {| float_str := "2.5"; float_bits := 0x4004000000000000 |}.

(** [a > 0] *)
Definition a_positive : node :=
  Other "Compare" [Name "a"; Other "Gt" []; Constant (CInt 0)].

(** [pass] *)
Definition pass_stmt : node := Other "Pass" [].

(** ** The skeleton of a counted loop *)

(** The lines of a counted loop that precede its body. *)
Definition loop_head (loop_id : nat) (range_arg : node) : list string :=
  ["    ; Begin loop " +:+ pretty loop_id;
   "    mov rcx, " +:+ range_operand range_arg +:+ "    ; loop counter";
   "loop_" +:+ pretty loop_id +:+ ":"].

(** The lines of a counted loop that follow its body. *)
Definition loop_tail (loop_id : nat) : list string :=
  ["    dec rcx";
   "    jnz loop_" +:+ pretty loop_id;
   "    ; End loop " +:+ pretty loop_id].

(** ** The order in which registers are assigned *)

(** The keys of a request sequence in the order of their first request. *)
Definition add_key (order : list string) (key : string) : list string :=
  if decide (key ∈ order) then order else order ++ [key].

Definition first_requests (keys : list string) : list string :=
  foldl add_key [] keys.

(** [in_order order ra]: the keys bound in [ra] are those of [order], the
    i-th of them bound to the i-th register of the file, and the free
    sequence is the rest of the file. *)
Record in_order (order : list string) (ra : RegisterAllocator.t) : Prop :=
  InOrder {
    ord_nodup : NoDup order;
    ord_length : length order ≤ length XMM_REGS;
    ord_free : free_xmm ra = drop (length order) XMM_REGS;
    ord_used :
      ∀ key reg,
        used_xmm ra !! key = Some reg ↔
        ∃ i, order !! i = Some key ∧ XMM_REGS !! i = Some reg
  }.

(** [tracks K m]: a run of [m] that returns has requested the keys of [K],
    in this order, and nothing else. *)
Definition tracks {A} (K : list string) (m : M A) : Prop :=
  ∀ order g a g',
    in_order order (reg_alloc g) → m g = Ok (a, g') →
    in_order (foldl add_key order K) (reg_alloc g').

(** ** What a lowering appends *)

(** The lines of [generate_prologue] for a function name. *)
Definition prologue_lines (name : string) : list string :=
  ["section .text"; "global " +:+ name; name +:+ ":";
   "    ; Function prologue"; "    push rbp"; "    mov rbp, rsp";
   "    ; Assume float args in rdi, rsi, rdx, rcx, r8, r9"].

(** The lines of [generate_epilogue]. *)
Definition epilogue_lines : list string :=
  ["    ; Function epilogue"; "    pop rbp"; "    ret"].

(** The number of lines a run of [evaluate_node n] that returns appends. *)
Fixpoint evaluate_line_count (n : node) : nat :=
  match n with
  | BinOp lhs _ rhs => evaluate_line_count lhs + evaluate_line_count rhs + 1
  | Name _ => 1
  | Constant _ => 2
  | _ => 0
  end.

Definition sum_list (l : list nat) : nat := foldr Nat.add 0 l.

(** The number of lines a run of [visit n] that returns appends. *)
Fixpoint visit_line_count (n : node) : nat :=
  match n with
  | FunctionDef _ _ body => 7 + sum_list (map visit_line_count body) + 3
  | Return None => 0
  | Return (Some value) => visit_line_count value
  | BinOp lhs _ rhs => evaluate_line_count lhs + evaluate_line_count rhs + 1
  | Name _ => 1
  | Constant _ => 2
  | For (Name _) (Call (Name f) (_ :: _) _) body _ =>
      if decide (f = "range")
      then 3 + sum_list (map visit_line_count body) + 3
      else 2
  | For _ _ _ _ => 2
  | Assign targets value =>
      sum_list (map visit_line_count targets) + visit_line_count value
  | If test body orelse =>
      visit_line_count test + sum_list (map visit_line_count body)
      + sum_list (map visit_line_count orelse)
  | Call func call_args keywords =>
      visit_line_count func + sum_list (map visit_line_count call_args)
      + sum_list (map visit_line_count keywords)
  | Other _ children => sum_list (map visit_line_count children)
  | AsyncFunctionDef _ _ children => sum_list (map visit_line_count children)
  end.

(** The number of for-statements a run of [visit n] that returns lowers. *)
Fixpoint visit_loop_count (n : node) : nat :=
  match n with
  | FunctionDef _ _ body => sum_list (map visit_loop_count body)
  | Return None => 0
  | Return (Some value) => visit_loop_count value
  | BinOp _ _ _ | Name _ | Constant _ => 0
  | For (Name _) (Call (Name f) (_ :: _) _) body _ =>
      if decide (f = "range")
      then 1 + sum_list (map visit_loop_count body)
      else 1
  | For _ _ _ _ => 1
  | Assign targets value =>
      sum_list (map visit_loop_count targets) + visit_loop_count value
  | If test body orelse =>
      visit_loop_count test + sum_list (map visit_loop_count body)
      + sum_list (map visit_loop_count orelse)
  | Call func call_args keywords =>
      visit_loop_count func + sum_list (map visit_loop_count call_args)
      + sum_list (map visit_loop_count keywords)
  | Other _ children => sum_list (map visit_loop_count children)
  | AsyncFunctionDef _ _ children => sum_list (map visit_loop_count children)
  end.

(** ** Counting what a lowering appends *)

(** [appends count loops m]: a run of [m] that returns has appended
    [count] lines to those already emitted, changed none of them, and
    advanced the loop counter by [loops]. *)
Definition appends {A} (count loops : nat) (m : M A) : Prop :=
  ∀ g a g',
    m g = Ok (a, g') →
    (∃ out, lines g' = lines g ++ out ∧ length out = count)
    ∧ loop_count g' = loop_count g + loops.


(** Two loops in sequence, the first around a third:
    [def f(n): for i in range(n): (for j in n: ...) ; for k in range(2): ...]. *)
Definition three_loops : node :=
  FunctionDef "f" ["n"]
    [For (Name "i") (Call (Name "range") [Name "n"] [])
       [For (Name "j") (Name "n") [] []] [];
     For (Name "k") (Call (Name "range") [Constant (CInt 2)] []) [] []].

(** The mnemonic stem [binop_to_asm] has for an operator. *)
Definition op_mnemonic (op : operator) : option string :=
  match op with
  | Add => Some "add"
  | Sub => Some "sub"
  | Mult => Some "mul"
  | Div => Some "div"
  | OtherOp _ => None
  end.

(** The instruction line of a binary operation. *)
Definition binop_line (mnemonic dest src : string) : string :=
  "    " +:+ mnemonic +:+ "sd " +:+ dest +:+ ", " +:+ src
  +:+ "    ; " +:+ mnemonic.

(** * Reasoning principles *)

(** Induction on a node, with the names of the source's fields. *)
Ltac node_induction n :=
  induction n as
    [ fname fparams body IHbody
    |
    | value IHvalue
    | targets value IHtargets IHvalue
    | target iter body orelse IHtarget IHiter IHbody IHorelse
    | test body orelse IHtest IHbody IHorelse
    | lhs op rhs IHlhs IHrhs
    | id
    | value
    | func call_args keywords IHfunc IHargs IHkeywords
    | cls children IHchildren
    | aname aparams children IHchildren ] using node_ind.

(** ** Python values *)

(** The significand [m] and exponent [e'] that [double_of_int] rounds a
    non-zero int to: the double [m * 2 ^ (e' - 52)] is within half a unit
    in the last place of the int, it is the int itself up to [2 ^ 53], and
    of two doubles equally near the one with the even significand is
    taken. *)
Lemma double_of_int_rounded (n : Z) :
  n ≠ 0%Z →
  ∃ m e',
    (2 ^ 52 ≤ m < 2 ^ 53)%Z
    ∧ (0 ≤ e')%Z
    ∧ double_of_int n =
      (if (1023 <? e')%Z then None
       else Some ((if (n <? 0)%Z then 2 ^ 63 else 0)
                  + (e' + 1023) * 2 ^ 52 + (m - 2 ^ 52))%Z)
    ∧ ((1023 <? e')%Z = true ↔ (2 ^ 1024 - 2 ^ 970 ≤ Z.abs n)%Z)
    ∧ (2 * Z.abs (2 ^ 52 * Z.abs n - m * 2 ^ e') ≤ 2 ^ e')%Z
    ∧ (e' ≤ 52 → 2 ^ 52 * Z.abs n = m * 2 ^ e')%Z
    ∧ (2 * Z.abs (2 ^ 52 * Z.abs n - m * 2 ^ e') = 2 ^ e' →
       Z.even m = true)%Z.
Proof.
  intros Hn. unfold double_of_int.
  rewrite (proj2 (Z.eqb_neq _ _)) by done.
  assert (0 < Z.abs n)%Z as Hpos by lia.
  pose proof (Z.log2_spec _ Hpos) as Hlog.
  pose proof (Z.log2_nonneg (Z.abs n)) as He.
  set (a := Z.abs n) in *. set (e := Z.log2 a) in *.
  rewrite <- Z.add_1_r in Hlog.
  destruct (e <=? 52)%Z eqn:Hsmall.
  - apply Z.leb_le in Hsmall.
    exists (a * 2 ^ (52 - e))%Z, e.
    assert (2 ^ e * 2 ^ (52 - e) = 2 ^ 52)%Z as H52
      by (rewrite <- Z.pow_add_r by lia; f_equal; lia).
    assert (2 ^ (e + 1) * 2 ^ (52 - e) = 2 ^ 53)%Z as H53
      by (rewrite <- Z.pow_add_r by lia; f_equal; lia).
    assert (0 < 2 ^ (52 - e))%Z as Hp by (apply Z.pow_pos_nonneg; lia).
    assert (0 < 2 ^ e)%Z as Hpe by (apply Z.pow_pos_nonneg; lia).
    split; [nia|]. split; [lia|]. split; [reflexivity|].
    assert (2 ^ (e + 1) ≤ 2 ^ 53)%Z by (apply Z.pow_le_mono_r; lia).
    split; [split; [intros ?%Z.ltb_lt; lia|]|].
    { intros Hbig. exfalso.
      assert (2 ^ 53 < 2 ^ 1024 - 2 ^ 970)%Z by (vm_compute; reflexivity).
      lia. }
    assert (2 ^ 52 * a - a * 2 ^ (52 - e) * 2 ^ e = 0)%Z as ->
      by (rewrite <- H52; ring).
    simpl Z.abs. split; [lia|]. split; [intros _; rewrite <- H52; ring|lia].
  - apply Z.leb_gt in Hsmall.
    set (sh := (e - 52)%Z). set (P := (2 ^ sh)%Z).
    set (half := (2 ^ (sh - 1))%Z).
    assert (0 < half)%Z as Hhalf by (apply Z.pow_pos_nonneg; lia).
    assert (P = 2 * half)%Z as HP.
    { unfold P, half. rewrite <- (Z.pow_succ_r 2 (sh - 1)) by lia.
      f_equal. lia. }
    assert (2 ^ e = 2 ^ 52 * P)%Z as H52
      by (unfold P, sh; rewrite <- Z.pow_add_r by lia; f_equal; lia).
    assert (2 ^ (e + 1) = 2 ^ 53 * P)%Z as H53
      by (unfold P, sh; rewrite <- Z.pow_add_r by lia; f_equal; lia).
    pose proof (Z.div_mod a P ltac:(lia)) as Hdiv.
    pose proof (Z.mod_pos_bound a P ltac:(lia)) as Hmod.
    set (q := (a / P)%Z) in *. set (r := (a mod P)%Z) in *.
    assert (2 ^ 52 = 4503599627370496)%Z as E52 by reflexivity.
    assert (2 ^ 53 = 9007199254740992)%Z as E53 by reflexivity.
    assert (2 ^ 52 ≤ q < 2 ^ 53)%Z as Hq by (rewrite E52, E53 in *; nia).
    set (up := ((half <? r)%Z || ((r =? half)%Z && Z.odd q))).
    assert (up = true → half ≤ r)%Z as Hup.
    { unfold up. intros [?%Z.ltb_lt | [?%Z.eqb_eq _]%andb_true_iff]%orb_true_iff;
        lia. }
    assert (up = false → r ≤ half)%Z as Hdown.
    { unfold up. intros [?%Z.ltb_ge _]%orb_false_iff. done. }
    assert (r = half → Z.odd q = up) as Htie.
    { unfold up. intros ->. rewrite Z.ltb_irrefl, Z.eqb_refl. reflexivity. }
    assert (q = 2 ^ 53 - 1 → half ≤ r → up = true)%Z as Hup'.
    { unfold up. intros -> Hr. destruct (Z.ltb_spec half r) as [|Hle]; [done|].
      simpl. rewrite (proj2 (Z.eqb_eq r half)) by lia. reflexivity. }
    assert (2 ^ 1023 < 2 ^ 1024 - 2 ^ 970)%Z as Hlow by (vm_compute; reflexivity).
    assert (e ≤ 1022 → 2 ^ (e + 1) ≤ 2 ^ 1023)%Z as Hmono
      by (intros; apply Z.pow_le_mono_r; lia).
    destruct ((if up then q + 1 else q) =? 2 ^ 53)%Z eqn:Hcarry.
    + apply Z.eqb_eq in Hcarry.
      exists (2 ^ 52)%Z, (e + 1)%Z.
      split; [rewrite E52, E53; lia|]. split; [lia|]. split; [reflexivity|].
      assert (up = true) as Htrue by (destruct up; [done|lia]).
      rewrite Htrue in Hcarry. specialize (Hup Htrue).
      split; [split|].
      * intros He'%Z.ltb_lt.
        assert (2 ^ 970 ≤ half)%Z as Hh
          by (unfold half, sh; apply Z.pow_le_mono_r; lia).
        replace (2 ^ 1024 - 2 ^ 970)%Z with (2 ^ 970 * (2 ^ 54 - 1))%Z
          by (vm_compute; reflexivity).
        assert (2 ^ 54 - 1 = 2 * (2 ^ 53 - 1) + 1)%Z as E54 by reflexivity.
        rewrite E54. nia.
      * intros Hbig. apply Z.ltb_lt.
        destruct (decide (e ≤ 1022)%Z); [|lia]. specialize (Hmono ltac:(done)).
        lia.
      * rewrite H53.
        assert (2 ^ 52 * a - 2 ^ 52 * (2 ^ 53 * P)
                = - (2 ^ 52 * (P - r)))%Z as ->
          by (rewrite Hdiv; replace q with (2 ^ 53 - 1)%Z by lia; ring).
        rewrite Z.abs_opp, Z.abs_eq by nia. rewrite E52, E53 in *.
        split; [nia|]. split; [lia|]. intros _. reflexivity.
    + apply Z.eqb_neq in Hcarry.
      exists (if up then q + 1 else q)%Z, e.
      split; [destruct up; lia|]. split; [lia|]. split; [reflexivity|].
      split; [split|].
      * intros He'%Z.ltb_lt.
        assert (2 ^ 1024 ≤ 2 ^ e)%Z by (apply Z.pow_le_mono_r; lia).
        assert (0 < 2 ^ 970)%Z by (apply Z.pow_pos_nonneg; lia). lia.
      * intros Hbig. apply Z.ltb_lt.
        destruct (decide (e ≤ 1022)%Z) as [Hle|Hgt];
          [specialize (Hmono Hle); lia|].
        destruct (decide (e = 1023)%Z) as [He1023|]; [|lia]. exfalso.
        assert (half = 2 ^ 970)%Z as Ehalf
          by (unfold half, sh; rewrite He1023; reflexivity).
        assert (2 ^ 1024 - 2 ^ 970 = (2 ^ 53 - 1) * (2 * 2 ^ 970) + 2 ^ 970)%Z
          as ET by (vm_compute; reflexivity).
        rewrite ET, <- Ehalf, <- HP in Hbig.
        assert (q = 2 ^ 53 - 1)%Z as Eq by (rewrite E53 in *; nia).
        assert (half ≤ r)%Z as Hr by (rewrite Eq in Hdiv; lia).
        rewrite (Hup' Eq Hr) in Hcarry. lia.
      * rewrite H52. clear Hcarry Hup' Hmono Hlow. destruct up.
        -- specialize (Hup eq_refl).
           assert (2 ^ 52 * a - (q + 1) * (2 ^ 52 * P)
                   = - (2 ^ 52 * (P - r)))%Z as ->
             by (rewrite Hdiv; ring).
           rewrite Z.abs_opp, Z.abs_eq by nia. rewrite E52 in *.
           split; [nia|]. split; [lia|]. intros Heq.
           assert (r = half) as Hr by nia.
           rewrite Z.even_add, <- Z.negb_odd, (Htie Hr). reflexivity.
        -- specialize (Hdown eq_refl).
           assert (2 ^ 52 * a - q * (2 ^ 52 * P) = 2 ^ 52 * r)%Z as ->
             by (rewrite Hdiv; ring).
           rewrite Z.abs_eq by nia. rewrite E52 in *.
           split; [nia|]. split; [lia|]. intros Heq.
           assert (r = half) as Hr by nia.
           rewrite <- Z.negb_odd, (Htie Hr). reflexivity.
Qed.

(** A literal that has a bit pattern can be printed. *)
Lemma float_to_hex_Ok_format (v : constant) (hexval : string) :
  float_to_hex v = Ok hexval → py_format v = Ok (py_str v).
Proof.
  unfold float_to_hex, double_bits, py_format, exceeds_str_digits.
  destruct v as [n| | | |]; try reflexivity.
  intros Hhex.
  assert (0 < 2 ^ 1024 - 2 ^ 970 < 10 ^ int_max_str_digits)%Z as Hlimit
    by (split; vm_compute; reflexivity).
  assert (Z.abs n < 2 ^ 1024 - 2 ^ 970)%Z as Hsmall.
  { destruct (decide (n = 0%Z)) as [->|Hn]; [simpl; lia|].
    destruct (double_of_int_rounded n Hn)
      as (m & e' & _ & _ & Heq & Hover & _).
    rewrite Heq in Hhex.
    destruct (1023 <? e')%Z eqn:Hlt; [discriminate|].
    destruct (Z.lt_ge_cases (Z.abs n) (2 ^ 1024 - 2 ^ 970)) as [|Hbig];
      [done|]. discriminate (proj2 Hover Hbig). }
  rewrite (proj2 (Z.leb_gt _ _)) by lia. reflexivity.
Qed.

Lemma py_format_Ok (v : constant) (text : string) :
  py_format v = Ok text → text = py_str v.
Proof.
  unfold py_format. destruct (exceeds_str_digits v); [discriminate|].
  by intros [= <-].
Qed.

(** ** The monad *)

Lemma bind_unfold {A B} (m : M A) (k : A → M B) (g : ASMGenerator) :
  (m ≫= k) g = match m g with
               | Ok (a, g') => k a g'
               | Raise e => Raise e
               end.
Proof. reflexivity. Qed.

Lemma bind_Ok {A B} (m : M A) (k : A → M B) g b g' :
  (m ≫= k) g = Ok (b, g') ↔ ∃ a g1, m g = Ok (a, g1) ∧ k a g1 = Ok (b, g').
Proof.
  rewrite bind_unfold. split.
  - destruct (m g) as [[a g1]|e]; [eauto | discriminate].
  - intros (a & g1 & -> & Hk). exact Hk.
Qed.

Lemma bind_Raise {A B} (m : M A) (k : A → M B) g e :
  (m ≫= k) g = Raise e ↔
  m g = Raise e ∨ ∃ a g1, m g = Ok (a, g1) ∧ k a g1 = Raise e.
Proof.
  rewrite bind_unfold. split.
  - destruct (m g) as [[a g1]|e']; [eauto | intros [= ->]; eauto].
  - intros [-> | (a & g1 & -> & Hk)]; [reflexivity | exact Hk].
Qed.

(** Runs the binds, emissions and returns at the head of a goal. *)
Ltac run_steps :=
  unfold mbind, M_bind, bind, emit, next_loop_id, get_func_name, raise,
    mret, M_ret, ret;
  cbn [func_name args lines reg_alloc loop_count].

(** The visitor unfolds to the loops over children it is written with. *)
Lemma visit_eq (n : node) :
  visit n =
  match n with
  | FunctionDef _ _ body =>
      generate_prologue ;; visit_each body ;; generate_epilogue
  | Return None => raise AttributeError
  | Return (Some value) => visit value
  | BinOp lhs op rhs => visit_BinOp lhs op rhs
  | Name id => visit_Name id ;; ret tt
  | Constant value => visit_Constant value ;; ret tt
  | For target iter body _ => visit_For target iter body
  | Assign targets value => visit_each targets ;; visit value
  | If test body orelse =>
      visit test ;; visit_each body ;; visit_each orelse
  | Call func call_args keywords =>
      visit func ;; visit_each call_args ;; visit_each keywords
  | Other _ children => visit_each children
  | AsyncFunctionDef _ _ children => visit_each children
  end.
Proof. destruct n as [| [v|] | | | | | | | | |]; reflexivity. Qed.

Lemma evaluate_node_BinOp lhs op rhs :
  evaluate_node (BinOp lhs op rhs) =
  (visit_BinOp lhs op rhs ;; allocate "tmp").
Proof. reflexivity. Qed.

Lemma visit_each_app (l1 l2 : list node) g :
  visit_each (l1 ++ l2) g = (visit_each l1 ;; visit_each l2) g.
Proof.
  revert g. induction l1 as [|x l1 IH]; intros g; simpl.
  - reflexivity.
  - rewrite !bind_unfold. destruct (visit x g) as [[[] g1]|e]; [|reflexivity].
    rewrite IH. reflexivity.
Qed.

(** ** The register pool *)

Lemma XMM_REGS_NoDup : NoDup XMM_REGS.
Proof. apply (bool_decide_unpack (NoDup XMM_REGS)). vm_compute. exact I. Qed.

Lemma init_pool_inv : pool_inv RegisterAllocator.init.
Proof.
  split; simpl.
  - exact XMM_REGS_NoDup.
  - intros key reg H. rewrite lookup_empty in H. discriminate.
  - intros k1 k2 reg H. rewrite lookup_empty in H. discriminate.
Qed.

Lemma init_pool_count : pool_count RegisterAllocator.init.
Proof. unfold pool_count. simpl. rewrite map_size_empty. lia. Qed.

Lemma allocate_xmm_init name :
  allocate_xmm name RegisterAllocator.init =
  Ok ("xmm0", {| free_xmm := tail XMM_REGS;
                 used_xmm := {[ name := "xmm0" ]} |}).
Proof. reflexivity. Qed.

Lemma allocate_xmm_hit name ra reg :
  used_xmm ra !! name = Some reg → allocate_xmm name ra = Ok (reg, ra).
Proof. intros H. unfold allocate_xmm. rewrite H. reflexivity. Qed.

Lemma allocate_xmm_Ok name ra reg ra' :
  allocate_xmm name ra = Ok (reg, ra') ↔
  (used_xmm ra !! name = Some reg ∧ ra' = ra) ∨
  (used_xmm ra !! name = None ∧
   ∃ rest, free_xmm ra = reg :: rest ∧
           ra' = {| free_xmm := rest;
                    used_xmm := <[name := reg]> (used_xmm ra) |}).
Proof.
  unfold allocate_xmm.
  destruct (used_xmm ra !! name) as [r|] eqn:Hused.
  - split.
    + intros [= -> ->]. left. done.
    + intros [[[= ->] ->] | [? _]]; done.
  - destruct (free_xmm ra) as [|r rest] eqn:Hfree.
    + split; [discriminate|].
      intros [[? _] | (_ & rest & ? & _)]; discriminate.
    + split.
      * intros [= -> <-]. right. eauto.
      * intros [[? _] | (_ & rest' & [= -> ->] & ->)]; done.
Qed.

Lemma allocate_xmm_Raise name ra e :
  allocate_xmm name ra = Raise e ↔
  e = pool_exhausted ∧ free_xmm ra = [] ∧ used_xmm ra !! name = None.
Proof.
  unfold allocate_xmm, pool_exhausted.
  destruct (used_xmm ra !! name) as [r|] eqn:Hused.
  - split; [discriminate | intros (_ & _ & ?); discriminate].
  - destruct (free_xmm ra) as [|r rest] eqn:Hfree.
    + split; [intros [= <-]; done | intros (-> & _); done].
    + split; [discriminate | intros (_ & ? & _); discriminate].
Qed.

(** The register returned is the one the key is bound to afterwards. *)
Lemma allocate_xmm_bound name ra reg ra' :
  allocate_xmm name ra = Ok (reg, ra') → used_xmm ra' !! name = Some reg.
Proof.
  intros [[H ->] | (_ & rest & _ & ->)]%allocate_xmm_Ok; [done|].
  simpl. apply lookup_insert_eq.
Qed.

(** Allocation only adds to the mapping. *)
Lemma allocate_xmm_mono name ra reg ra' :
  allocate_xmm name ra = Ok (reg, ra') → used_xmm ra ⊆ used_xmm ra'.
Proof.
  intros [[H ->] | (Hnone & rest & _ & ->)]%allocate_xmm_Ok; [done|].
  simpl. by apply insert_subseteq.
Qed.

Lemma allocate_xmm_inv name ra reg ra' :
  allocate_xmm name ra = Ok (reg, ra') → pool_inv ra → pool_inv ra'.
Proof.
  intros [[H ->] | (Hnone & rest & Hfree & ->)]%allocate_xmm_Ok [Hnd Hdis Hinj];
    [done|].
  rewrite Hfree in Hnd, Hdis. apply NoDup_cons in Hnd as [Hreg Hnd].
  split; simpl.
  - exact Hnd.
  - intros key r Hkey. destruct (decide (name = key)) as [->|Hne].
    + rewrite lookup_insert_eq in Hkey. injection Hkey as <-. exact Hreg.
    + rewrite lookup_insert_ne in Hkey by done.
      specialize (Hdis _ _ Hkey). set_solver.
  - intros k1 k2 r H1 H2.
    destruct (decide (k1 = name)) as [->|Hne1];
      destruct (decide (k2 = name)) as [->|Hne2]; [done | | |].
    + rewrite lookup_insert_eq in H1. injection H1 as <-.
      rewrite lookup_insert_ne in H2 by done.
      specialize (Hdis _ _ H2). set_solver.
    + rewrite lookup_insert_eq in H2. injection H2 as <-.
      rewrite lookup_insert_ne in H1 by done.
      specialize (Hdis _ _ H1). set_solver.
    + rewrite lookup_insert_ne in H1, H2 by done. eauto.
Qed.

Lemma allocate_xmm_count name ra reg ra' :
  allocate_xmm name ra = Ok (reg, ra') → pool_count ra → pool_count ra'.
Proof.
  intros [[H ->] | (Hnone & rest & Hfree & ->)]%allocate_xmm_Ok; [done|].
  unfold pool_count. simpl. rewrite Hfree. simpl.
  rewrite map_size_insert_None by done. lia.
Qed.

Lemma free_all_inv ra : pool_inv (free_all ra).
Proof. exact init_pool_inv. Qed.

Lemma pool_count_size ra : pool_count ra → size (used_xmm ra) ≤ 16.
Proof. unfold pool_count. change (length XMM_REGS) with 16. lia. Qed.

(** ** What a visitor may change in the generator *)

#[global] Instance extends_preorder : PreOrder extends.
Proof.
  split.
  - intros g. split; done.
  - intros g1 g2 g3 [] []. split; try (etrans; eassumption); try congruence; auto.
Qed.

Lemma preserves_ret {A} (a : A) : preserves (mret a).
Proof. intros g a' g' [= _ <-]. reflexivity. Qed.

Lemma preserves_raise {A} e : preserves (@raise A e).
Proof. intros g a g' [=]. Qed.

Lemma preserves_bind {A B} (m : M A) (k : A → M B) :
  preserves m → (∀ a, preserves (k a)) → preserves (m ≫= k).
Proof.
  intros Hm Hk g b g' (a & g1 & H1 & H2)%bind_Ok.
  etrans; [eapply Hm | eapply Hk]; eassumption.
Qed.

Lemma preserves_emit line : preserves (emit line).
Proof.
  intros g [] g' [= <-]. split; simpl; try done.
  by apply prefix_app_r.
Qed.

Lemma preserves_allocate name : preserves (allocate name).
Proof.
  intros g reg g'. unfold allocate.
  destruct (allocate_xmm name (reg_alloc g)) as [[r ra]|e] eqn:Halloc;
    intros [= -> <-].
  split; simpl; try done.
  - eapply allocate_xmm_mono; eassumption.
  - eapply allocate_xmm_inv; eassumption.
  - eapply allocate_xmm_count; eassumption.
Qed.

Lemma preserves_next_loop_id : preserves next_loop_id.
Proof. intros g a g' [= _ <-]. split; simpl; try done. lia. Qed.

Create HintDb preserves.
#[global] Hint Resolve preserves_ret preserves_raise preserves_emit
  preserves_allocate preserves_next_loop_id : preserves.

(** Splits a sequence of binds into its steps. *)
Ltac preserves_steps :=
  repeat first
    [ solve [ auto with preserves ]
    | apply preserves_bind; [ | intros ? ] ].

Lemma preserves_get_func_name : preserves get_func_name.
Proof. intros g a g' [= _ <-]. reflexivity. Qed.

Lemma preserves_generate_prologue : preserves generate_prologue.
Proof.
  unfold generate_prologue.
  apply preserves_bind; [apply preserves_get_func_name|]. intros name.
  preserves_steps.
Qed.

Lemma preserves_generate_epilogue : preserves generate_epilogue.
Proof. unfold generate_epilogue. preserves_steps. Qed.

Lemma preserves_visit_Name id : preserves (visit_Name id).
Proof.
  intros g a g'. unfold visit_Name.
  destruct (list_index id (args g)) as [idx|]; [|discriminate].
  destruct (GENERAL_REGS !! idx) as [reg|]; [|discriminate].
  revert g a g'. change (preserves (
    xmm ← allocate id;
    emit ("    movq " +:+ xmm +:+ ", " +:+ reg
          +:+ "    ; Load argument " +:+ id) ;; mret xmm)).
  preserves_steps.
Qed.

Lemma preserves_visit_Constant value : preserves (visit_Constant value).
Proof.
  unfold visit_Constant, py_format.
  destruct (exceeds_str_digits value); [apply preserves_raise|].
  apply preserves_bind; [auto with preserves|].
  intros xmm. destruct (float_to_hex value); preserves_steps.
Qed.

Lemma preserves_binop_to_asm op l r : preserves (binop_to_asm op l r).
Proof. destruct op; simpl; auto with preserves. Qed.

#[global] Hint Resolve preserves_generate_prologue preserves_generate_epilogue
  preserves_visit_Name preserves_visit_Constant preserves_binop_to_asm
  : preserves.

Lemma preserves_evaluate_node n : preserves (evaluate_node n).
Proof.
  node_induction n; try (simpl; auto with preserves; fail).
  rewrite evaluate_node_BinOp. unfold visit_BinOp, visit_BinOp_with.
  preserves_steps.
Qed.

#[global] Hint Resolve preserves_evaluate_node : preserves.

Lemma preserves_visit_BinOp lhs op rhs : preserves (visit_BinOp lhs op rhs).
Proof. unfold visit_BinOp, visit_BinOp_with. preserves_steps. Qed.

Lemma preserves_visit_For_with lower_body target iter :
  preserves lower_body → preserves (visit_For_with lower_body target iter).
Proof.
  intros Hbody. unfold visit_For_with.
  apply preserves_bind; [auto with preserves|]. intros loop_id.
  apply preserves_bind; [auto with preserves|]. intros _.
  destruct target; auto with preserves.
  destruct iter as [| | | | | | | |func call_args kw| |]; auto with preserves.
  destruct func; auto with preserves.
  case_decide; auto with preserves.
  destruct call_args as [|range_arg call_args]; auto with preserves.
  destruct (format_operand range_arg); [|auto with preserves].
  preserves_steps.
Qed.

Lemma preserves_visit_each l :
  Forall (λ n, preserves (visit n)) l → preserves (visit_each l).
Proof.
  induction 1 as [|x l Hx _ IH]; simpl; [auto with preserves|].
  apply preserves_bind; auto.
Qed.

#[global] Hint Resolve preserves_visit_BinOp preserves_visit_For_with
  preserves_visit_each : preserves.

Lemma preserves_visit n : preserves (visit n).
Proof.
  node_induction n; rewrite visit_eq; try unfold visit_For;
    preserves_steps; auto with preserves.
Qed.

#[global] Hint Resolve preserves_visit : preserves.

(** ** The keys a lowering asks the pool for *)

Lemma requests_nil {A} (m : M A) : requests [] m.
Proof. intros g a g' _ key H. by apply elem_of_nil in H. Qed.

Lemma requests_raise {A} K e : requests K (@raise A e).
Proof. intros g a g' [=]. Qed.

Lemma requests_bind {A B} K1 K2 (m : M A) (k : A → M B) :
  requests K1 m → (∀ a, preserves (k a)) → (∀ a, requests K2 (k a)) →
  requests (K1 ++ K2) (m ≫= k).
Proof.
  intros Hm Hpk Hk g b g' (a & g1 & H1 & H2)%bind_Ok key
    [Hkey|Hkey]%elem_of_app.
  - destruct (Hm _ _ _ H1 _ Hkey) as [reg Hreg]. exists reg.
    eapply lookup_weaken; [exact Hreg|]. eapply ext_used, Hpk, H2.
  - eapply Hk; eassumption.
Qed.

Lemma requests_bind_l {A B} K (m : M A) (k : A → M B) :
  requests K m → (∀ a, preserves (k a)) → requests K (m ≫= k).
Proof.
  intros Hm Hpk. rewrite <- (app_nil_r K).
  apply requests_bind; [done..|]. intros a. apply requests_nil.
Qed.

Lemma requests_bind_r {A B} K (m : M A) (k : A → M B) :
  (∀ a, requests K (k a)) → requests K (m ≫= k).
Proof.
  intros Hk g b g' (a & g1 & H1 & H2)%bind_Ok key Hkey.
  eapply Hk; eassumption.
Qed.

Lemma requests_allocate name : requests [name] (allocate name).
Proof.
  intros g reg g'. unfold allocate.
  destruct (allocate_xmm name (reg_alloc g)) as [[r ra]|e] eqn:Halloc;
    intros [= -> <-] key ->%list_elem_of_singleton.
  simpl. eexists. eapply allocate_xmm_bound, Halloc.
Qed.

Lemma requests_visit_Name id : requests [id] (visit_Name id).
Proof.
  intros g a g'. unfold visit_Name.
  destruct (list_index id (args g)) as [idx|]; [|discriminate].
  destruct (GENERAL_REGS !! idx) as [reg|]; [|discriminate].
  revert g a g'. apply requests_bind_l; [apply requests_allocate|].
  intros xmm. preserves_steps.
Qed.

Lemma requests_visit_Constant value :
  requests ["const_" +:+ py_str value] (visit_Constant value).
Proof.
  unfold visit_Constant, py_format.
  destruct (exceeds_str_digits value); [intros g a g' [=]|].
  apply requests_bind_l; [apply requests_allocate|].
  intros xmm. destruct (float_to_hex value); preserves_steps.
Qed.

Lemma requests_evaluate_node n : requests (evaluate_keys n) (evaluate_node n).
Proof.
  node_induction n; simpl evaluate_keys; try apply requests_nil.
  - rewrite evaluate_node_BinOp. unfold visit_BinOp, visit_BinOp_with.
    rewrite app_assoc. apply requests_bind; [|auto with preserves|].
    + apply requests_bind; [done|intros; preserves_steps|].
      intros l. apply requests_bind_l; [done|intros; preserves_steps].
    + intros _. apply requests_allocate.
  - apply requests_visit_Name.
  - apply requests_visit_Constant.
Qed.

Lemma requests_visit_each l :
  Forall (λ n, requests (visit_keys n) (visit n)) l →
  requests (flat_map visit_keys l) (visit_each l).
Proof.
  induction 1 as [|x l Hx _ IH]; simpl; [apply requests_nil|].
  apply requests_bind; [done| |done]. intros _.
  apply preserves_visit_each, Forall_forall. auto with preserves.
Qed.

Lemma preserves_visit_each_all l : preserves (visit_each l).
Proof. apply preserves_visit_each, Forall_forall. auto with preserves. Qed.

#[global] Hint Resolve preserves_visit_each_all : preserves.

Lemma requests_visit n : requests (visit_keys n) (visit n).
Proof.
  node_induction n; rewrite visit_eq; simpl visit_keys.
  - apply requests_bind_r. intros _.
    apply requests_bind_l; [by apply requests_visit_each|].
    auto with preserves.
  - apply requests_nil.
  - done.
  - apply requests_bind; [by apply requests_visit_each| |done].
    auto with preserves.
  - unfold visit_For, visit_For_with.
    destruct target; try apply requests_nil.
    destruct iter as [| | | | | | | |func call_args kw| |];
      try apply requests_nil.
    destruct func; try apply requests_nil.
    destruct call_args as [|range_arg call_args]; try apply requests_nil.
    case_decide; [|apply requests_nil].
    do 2 (apply requests_bind_r; intros ?).
    destruct (format_operand range_arg); [|apply requests_raise].
    do 2 (apply requests_bind_r; intros ?).
    apply requests_bind_l; [by apply requests_visit_each|].
    intros; preserves_steps.
  - apply requests_bind; [done|intros; preserves_steps|]. intros _.
    apply requests_bind; [by apply requests_visit_each| |].
    + auto with preserves.
    + intros _. by apply requests_visit_each.
  - unfold visit_BinOp, visit_BinOp_with.
    apply requests_bind; [apply requests_evaluate_node
                         |intros; preserves_steps|].
    intros l. apply requests_bind_l; [apply requests_evaluate_node|].
    intros; preserves_steps.
  - apply requests_bind_l; [apply requests_visit_Name|auto with preserves].
  - apply requests_bind_l; [apply requests_visit_Constant|auto with preserves].
  - apply requests_bind; [done|intros; preserves_steps|]. intros _.
    apply requests_bind; [by apply requests_visit_each| |].
    + auto with preserves.
    + intros _. by apply requests_visit_each.
  - by apply requests_visit_each.
  - by apply requests_visit_each.
Qed.

(** ** Lowering a supported function: success or pool exhaustion *)

Lemma runs_within_bind {A B} params K1 K2 K (m : M A) (k : A → M B) :
  runs_within params K1 m → preserves m →
  (∀ a, runs_within params K2 (k a)) →
  K = K1 ∪ K2 →
  runs_within params K (m ≫= k).
Proof.
  intros Hm Hpm Hk -> g Hargs Hcount. rewrite bind_unfold.
  specialize (Hm g Hargs Hcount).
  assert (Hsub : size (dom (used_xmm (reg_alloc g)) ∪ K1)
                 ≤ size (dom (used_xmm (reg_alloc g)) ∪ (K1 ∪ K2))).
  { apply subseteq_size, union_mono_l, union_subseteq_l. }
  destruct (decide (size (dom (used_xmm (reg_alloc g)) ∪ K1)
                    ≤ length XMM_REGS)) as [Hfit1|Hnot1].
  - destruct Hm as (a & g1 & Hrun & Hdom1). rewrite Hrun.
    pose proof (Hpm _ _ _ Hrun) as Hext.
    specialize (Hk a g1 (eq_trans (ext_args _ _ Hext) Hargs)
                  (ext_count _ _ Hext Hcount)).
    rewrite Hdom1, <- (assoc_L (∪)) in Hk.
    destruct (decide (size (dom (used_xmm (reg_alloc g)) ∪ (K1 ∪ K2))
                      ≤ length XMM_REGS)); [|exact Hk].
    destruct Hk as (b & g' & Hrun' & Hdom'). eauto.
  - rewrite Hm. rewrite decide_False by lia. reflexivity.
Qed.

Lemma runs_within_ret {A} params (a : A) : runs_within params ∅ (mret a).
Proof.
  intros g _ Hcount. rewrite (right_id_L ∅ (∪)), size_dom.
  rewrite decide_True by (unfold pool_count in Hcount; lia).
  eauto.
Qed.

Lemma runs_within_emit params line : runs_within params ∅ (emit line).
Proof.
  intros g _ Hcount. rewrite (right_id_L ∅ (∪)), size_dom.
  rewrite decide_True by (unfold pool_count in Hcount; lia).
  eauto.
Qed.

Lemma runs_within_next_loop_id params : runs_within params ∅ next_loop_id.
Proof.
  intros g _ Hcount. rewrite (right_id_L ∅ (∪)), size_dom.
  rewrite decide_True by (unfold pool_count in Hcount; lia).
  eauto.
Qed.

Lemma runs_within_allocate params name :
  runs_within params {[name]} (allocate name).
Proof.
  intros g _ Hcount. unfold allocate, pool_count in *.
  change (length XMM_REGS) with 16 in *.
  destruct (used_xmm (reg_alloc g) !! name) as [reg|] eqn:Hused.
  - rewrite (allocate_xmm_hit _ _ _ Hused).
    assert (dom (used_xmm (reg_alloc g)) ∪ {[name]}
            = dom (used_xmm (reg_alloc g))) as ->.
    { rewrite (comm_L (∪)).
      by apply subseteq_union_1_L, singleton_subseteq_l, elem_of_dom_2
        with reg. }
    rewrite size_dom, decide_True by lia. eauto.
  - assert (size (dom (used_xmm (reg_alloc g)) ∪ {[name]})
            = S (size (used_xmm (reg_alloc g)))) as ->.
    { rewrite size_union, size_singleton, size_dom by
        (by apply disjoint_singleton_r, not_elem_of_dom). lia. }
    destruct (free_xmm (reg_alloc g)) as [|reg rest] eqn:Hfree.
    + simpl in Hcount. rewrite decide_False by lia.
      unfold allocate_xmm. rewrite Hused, Hfree. reflexivity.
    + simpl in Hcount. rewrite decide_True by lia.
      unfold allocate_xmm. rewrite Hused, Hfree. do 2 eexists.
      split; [reflexivity|]. simpl. rewrite dom_insert_L.
      apply (comm_L (∪)).
Qed.

Lemma runs_within_then {A B} params K (m : M A) (k : A → M B) :
  runs_within params ∅ m → preserves m →
  (∀ a, runs_within params K (k a)) →
  runs_within params K (m ≫= k).
Proof.
  intros. eapply runs_within_bind; [eassumption..|].
  by rewrite (left_id_L ∅ (∪)).
Qed.

Lemma runs_within_first {A B} params K (m : M A) (k : A → M B) :
  runs_within params K m → preserves m →
  (∀ a, runs_within params ∅ (k a)) →
  runs_within params K (m ≫= k).
Proof.
  intros. eapply runs_within_bind; [eassumption..|].
  by rewrite (right_id_L ∅ (∪)).
Qed.

(** Closes a tail of emissions that ends in a return. *)
Ltac runs_emits :=
  repeat first
    [ apply runs_within_emit
    | apply runs_within_ret
    | apply runs_within_then;
        [ apply runs_within_emit | apply preserves_emit | intros ? ] ].

Lemma runs_within_visit_Name params id :
  supported_expr params (Name id) = true →
  runs_within params {[id]} (visit_Name id).
Proof.
  simpl. intros Hsup g Hargs. unfold visit_Name. rewrite Hargs.
  destruct (list_index id params) as [idx|]; [|discriminate].
  apply bool_decide_eq_true_1, (lookup_lt_is_Some_2 GENERAL_REGS) in Hsup
    as [reg ->].
  revert g Hargs.
  apply (runs_within_first params {[id]} (allocate id));
    [apply runs_within_allocate | apply preserves_allocate |].
  intros xmm. runs_emits.
Qed.

Lemma runs_within_visit_Constant params value :
  supported_expr params (Constant value) = true →
  runs_within params {["const_" +:+ py_str value]} (visit_Constant value).
Proof.
  simpl. intros Hsup. unfold visit_Constant.
  destruct (float_to_hex value) as [hexval|] eqn:Hhex; [|discriminate].
  rewrite (float_to_hex_Ok_format _ _ Hhex).
  apply runs_within_first;
    [apply runs_within_allocate | apply preserves_allocate |].
  intros xmm. runs_emits.
Qed.

Lemma runs_within_binop_to_asm params op l r :
  supported_op op = true → runs_within params ∅ (binop_to_asm op l r).
Proof. destruct op; simpl; try discriminate; intros _; apply runs_within_ret. Qed.

Lemma runs_within_visit_BinOp params lhs op rhs :
  runs_within params (list_to_set (evaluate_keys lhs)) (evaluate_node lhs) →
  runs_within params (list_to_set (evaluate_keys rhs)) (evaluate_node rhs) →
  supported_op op = true →
  runs_within params
    (list_to_set (evaluate_keys lhs ++ evaluate_keys rhs))
    (visit_BinOp lhs op rhs).
Proof.
  intros Hl Hr Hop. unfold visit_BinOp, visit_BinOp_with.
  eapply runs_within_bind;
    [exact Hl | auto with preserves | | apply list_to_set_app_L].
  intros l. apply runs_within_first; [exact Hr | auto with preserves |].
  intros r. apply runs_within_then;
    [by apply runs_within_binop_to_asm | auto with preserves |].
  intros line. apply runs_within_emit.
Qed.

Lemma runs_within_evaluate_node params n :
  supported_expr params n = true →
  runs_within params (list_to_set (evaluate_keys n)) (evaluate_node n).
Proof.
  node_induction n; try discriminate.
  - simpl supported_expr.
    intros [[Hl Hop]%andb_true_iff Hr]%andb_true_iff.
    rewrite evaluate_node_BinOp. simpl evaluate_keys.
    eapply runs_within_bind;
      [apply runs_within_visit_BinOp; auto
      | auto with preserves
      | intros _; apply runs_within_allocate
      |].
    rewrite app_assoc, list_to_set_app_L. simpl.
    by rewrite (right_id_L ∅ (∪)).
  - intros Hsup. simpl evaluate_keys. simpl list_to_set.
    rewrite (right_id_L ∅ (∪)). by apply runs_within_visit_Name.
  - intros Hsup. simpl evaluate_keys. simpl list_to_set.
    rewrite (right_id_L ∅ (∪)). by apply runs_within_visit_Constant.
Qed.

(** A supported expression in statement position. *)
Lemma runs_within_visit_expr params n :
  supported_expr params n = true →
  runs_within params (list_to_set (visit_keys n)) (visit n).
Proof.
  intros Hsup. destruct n; try discriminate; rewrite visit_eq.
  - simpl in Hsup. apply andb_true_iff in Hsup as [[Hl Hop]%andb_true_iff Hr].
    simpl visit_keys.
    apply runs_within_visit_BinOp; auto using runs_within_evaluate_node.
  - simpl visit_keys. simpl list_to_set. rewrite (right_id_L ∅ (∪)).
    apply runs_within_first;
      [by apply runs_within_visit_Name | auto with preserves |].
    intros _. apply runs_within_ret.
  - simpl visit_keys. simpl list_to_set. rewrite (right_id_L ∅ (∪)).
    apply runs_within_first;
      [by apply runs_within_visit_Constant | auto with preserves |].
    intros _. apply runs_within_ret.
Qed.

Lemma runs_within_visit_each params (ok : node → bool) l :
  Forall (λ n, ok n = true →
               runs_within params (list_to_set (visit_keys n)) (visit n)) l →
  forallb ok l = true →
  runs_within params (list_to_set (flat_map visit_keys l)) (visit_each l).
Proof.
  induction 1 as [|x l Hx _ IH]; simpl.
  - intros _. apply runs_within_ret.
  - intros [Hokx Hokl]%andb_true_iff.
    eapply runs_within_bind;
      [exact (Hx Hokx) | auto with preserves | intros _; exact (IH Hokl)
      | apply list_to_set_app_L].
Qed.

Lemma runs_within_visit_stmt params n :
  supported_stmt params n = true →
  runs_within params (list_to_set (visit_keys n)) (visit n).
Proof.
  node_induction n; try discriminate.
  - (* return *)
    simpl supported_stmt. intros Hsup.
    rewrite visit_eq. simpl visit_keys.
    by apply runs_within_visit_expr.
  - (* assignment *)
    simpl supported_stmt. intros [Ht Hv]%andb_true_iff.
    rewrite visit_eq. simpl visit_keys.
    eapply runs_within_bind;
      [ | auto with preserves
        | intros _; by apply runs_within_visit_expr
        | apply list_to_set_app_L].
    apply (runs_within_visit_each params (supported_target params));
      [|exact Ht].
    apply Forall_forall. intros t _ Hsup. destruct t; try discriminate.
    by apply runs_within_visit_expr.
  - (* counted loop *)
    simpl supported_stmt. intros Hsup.
    destruct target; try discriminate.
    destruct iter as [| | | | | | | |func call_args kw| |]; try discriminate.
    destruct func as [| | | | | |f| | | |]; try discriminate.
    destruct call_args as [|range_arg call_args]; try discriminate.
    apply andb_true_iff in Hsup as [Hsup Hbody].
    apply andb_true_iff in Hsup as [Hf%bool_decide_eq_true_1 Hformat].
    rewrite visit_eq. simpl visit_keys. unfold visit_For, visit_For_with.
    rewrite !decide_True by done.
    apply runs_within_then;
      [apply runs_within_next_loop_id | auto with preserves |].
    intros loop_id. apply runs_within_then;
      [apply runs_within_emit | apply preserves_emit | intros _].
    rewrite decide_True by done.
    destruct (format_operand range_arg) as [n_var|]; [|discriminate].
    do 2 (apply runs_within_then;
      [apply runs_within_emit | apply preserves_emit | intros _]).
    apply runs_within_first;
      [ by apply (runs_within_visit_each params (supported_stmt params))
      | auto with preserves | ].
    intros _. runs_emits.
Qed.

Lemma runs_within_generate_prologue params :
  runs_within params ∅ generate_prologue.
Proof.
  unfold generate_prologue. apply runs_within_then.
  - intros g _ Hcount. rewrite (right_id_L ∅ (∪)), size_dom.
    rewrite decide_True by (unfold pool_count in Hcount; lia).
    unfold get_func_name. eauto.
  - apply preserves_get_func_name.
  - intros name. runs_emits.
Qed.

Lemma runs_within_visit_function name params body :
  supported (FunctionDef name params body) = true →
  runs_within params
    (list_to_set (visit_keys (FunctionDef name params body)))
    (visit (FunctionDef name params body)).
Proof.
  simpl supported. intros Hsup. rewrite visit_eq. simpl visit_keys.
  apply runs_within_then;
    [apply runs_within_generate_prologue | auto with preserves |].
  intros _. apply runs_within_first; [|auto with preserves|].
  - apply (runs_within_visit_each params (supported_stmt params));
      [|exact Hsup].
    apply Forall_forall. intros n _. apply runs_within_visit_stmt.
  - intros _. unfold generate_epilogue. runs_emits.
Qed.

(** * Properties of the register pool *)

(** C10: in a compilation with a fresh register pool the first register
    allocated, whatever key is requested first, is xmm0, the head of the
    fixed sequence xmm0..xmm15; so the first parameter or literal loaded by
    the function body is loaded into xmm0, the return-value register. *)
Theorem first_allocation_is_xmm0 (key : string) :
  XMM_REGS =
    ["xmm0"; "xmm1"; "xmm2"; "xmm3"; "xmm4"; "xmm5"; "xmm6"; "xmm7";
     "xmm8"; "xmm9"; "xmm10"; "xmm11"; "xmm12"; "xmm13"; "xmm14"; "xmm15"]
  ∧ allocate_xmm key RegisterAllocator.init =
      Ok ("xmm0", {| free_xmm := tail XMM_REGS;
                     used_xmm := {[ key := "xmm0" ]} |})
  ∧ (∀ fn params ls lc,
       visit_Name key (MkGen fn params ls RegisterAllocator.init lc) =
       match list_index key params with
       | None => Raise ValueError
       | Some idx =>
           match GENERAL_REGS !! idx with
           | None => Raise IndexError
           | Some reg =>
               Ok ("xmm0",
                   MkGen fn params
                     (ls ++ ["    movq xmm0, " +:+ reg
                             +:+ "    ; Load argument " +:+ key])
                     {| free_xmm := tail XMM_REGS;
                        used_xmm := {[ key := "xmm0" ]} |} lc)
           end
       end)
  ∧ (∀ value fn params ls lc,
       visit_Constant value (MkGen fn params ls RegisterAllocator.init lc) =
       match py_format value with
       | Raise e => Raise e
       | Ok text =>
           match float_to_hex value with
           | Raise e => Raise e
           | Ok hexval =>
               Ok ("xmm0",
                   MkGen fn params
                     (ls ++ ["    mov rax, " +:+ hexval
                             +:+ "    ; Load constant " +:+ text;
                             "    movq xmm0, rax"])
                     {| free_xmm := tail XMM_REGS;
                        used_xmm := {[ "const_" +:+ text := "xmm0" ]} |}
                     lc)
           end
       end).
Proof.
  split; [reflexivity|]. split; [reflexivity|]. split.
  - intros fn params ls lc. unfold visit_Name. simpl args.
    destruct (list_index key params) as [idx|]; [|reflexivity].
    destruct (GENERAL_REGS !! idx) as [reg|]; reflexivity.
  - intros value fn params ls lc. unfold visit_Constant.
    destruct (py_format value) as [text|]; [|reflexivity].
    rewrite bind_unfold. unfold allocate. simpl reg_alloc.
    rewrite allocate_xmm_init.
    destruct (float_to_hex value); [|reflexivity].
    run_steps. rewrite <- app_assoc. reflexivity.
Qed.

(** C6, as the code has it: [allocate_xmm key] raises exactly when the
    free sequence is empty and [key] has no register yet, and the error is
    then the pool-exhaustion [RuntimeError].  A compilation that returns a
    text has asked for at most 16 distinct keys, so a function that needs
    more is never compiled to a text, truncated or not.  The error it
    raises is the pool-exhaustion error, precisely when more than 16 keys
    are needed, for a function of the supported grammar: returns,
    assignments and counted loops with a printable trip count, over
    parameters that have an argument register, literals that have a bit
    pattern and the four operators.  Outside that grammar another error
    can come first. *)
Theorem pool_exhaustion (func_node : node) :
  (∀ key ra e,
     allocate_xmm key ra = Raise e ↔
     e = RuntimeError "Ran out of XMM registers!"
     ∧ free_xmm ra = [] ∧ used_xmm ra !! key = None)
  ∧ (∀ text, transpile_to_asm func_node = Ok text →
             distinct_keys func_node ≤ 16)
  ∧ (supported func_node = true →
     (transpile_to_asm func_node
      = Raise (RuntimeError "Ran out of XMM registers!")
      ↔ 16 < distinct_keys func_node)).
Proof.
  split; [exact allocate_xmm_Raise|]. split.
  - intros text. unfold transpile_to_asm.
    destruct func_node as [name params body| | | | | | | | | |
                           name params children];
      try discriminate.
    all: destruct (visit _ _) as [[[] gen]|e] eqn:Hrun; [|discriminate].
    all: intros _; unfold distinct_keys.
    all: pose proof (preserves_visit _ _ _ _ Hrun) as Hext.
    all: pose proof (pool_count_size _ (ext_count _ _ Hext init_pool_count))
           as Hsize.
    all: rewrite <- size_dom in Hsize; (etrans; [|exact Hsize]).
    all: apply subseteq_size; intros key Hkey%elem_of_list_to_set.
    all: apply elem_of_dom; eapply requests_visit; eassumption.
  - intros Hsup.
    destruct func_node as [name params body| | | | | | | | | |];
      try discriminate.
    pose proof (runs_within_visit_function name params body Hsup
                  (ASMGenerator_init name params) eq_refl init_pool_count)
      as Hrun.
    simpl reg_alloc in Hrun. simpl used_xmm in Hrun.
    rewrite dom_empty_L, (left_id_L ∅ (∪)) in Hrun.
    unfold distinct_keys, transpile_to_asm.
    change (length XMM_REGS) with 16 in Hrun.
    destruct (decide (size _ ≤ 16)) as [Hfit|Hnot].
    + destruct Hrun as ([] & g' & -> & _). split; [discriminate|lia].
    + rewrite Hrun. split; [lia|reflexivity].
Qed.

Lemma pool_exhaustion_witness :
  supported sum_of_17 = true
  ∧ transpile_to_asm sum_of_17 = Raise (RuntimeError "Ran out of XMM registers!").
Proof.
  split; [reflexivity|].
  apply (proj2 (proj2 (pool_exhaustion sum_of_17))); [reflexivity|].
  vm_compute. lia.
Defined.

(** A function that needs nineteen keys and does not raise the
    pool-exhaustion error: its first name is no parameter, and looking it
    up raises [ValueError] before the pool is asked for a register. *)
Lemma unbound_name_raises_before_pool :
  16 < distinct_keys sum_of_17_unbound
  ∧ transpile_to_asm sum_of_17_unbound = Raise ValueError
  ∧ transpile_to_asm sum_of_17_unbound
    ≠ Raise (RuntimeError "Ran out of XMM registers!").
Proof.
  split; [vm_compute; lia|]. split; [vm_compute; reflexivity|].
  vm_compute. discriminate.
Qed.

(** C7: the pool is partitioned throughout a compilation.  A fresh pool and
    a pool after [free_all] satisfy the partition invariant (no register
    both free and bound, none free twice, none bound to two keys); every
    [allocate_xmm] that returns preserves it and keeps every binding; and
    so does every visitor, from any generator state that satisfies it. *)
Theorem pool_partition_preserved :
  pool_inv RegisterAllocator.init
  ∧ (∀ ra, pool_inv (free_all ra))
  ∧ (∀ key ra reg ra',
       pool_inv ra → allocate_xmm key ra = Ok (reg, ra') →
       pool_inv ra' ∧ used_xmm ra ⊆ used_xmm ra')
  ∧ (∀ n g reg g',
       pool_inv (reg_alloc g) → evaluate_node n g = Ok (reg, g') →
       pool_inv (reg_alloc g')
       ∧ used_xmm (reg_alloc g) ⊆ used_xmm (reg_alloc g'))
  ∧ (∀ n g g',
       pool_inv (reg_alloc g) → visit n g = Ok (tt, g') →
       pool_inv (reg_alloc g')
       ∧ used_xmm (reg_alloc g) ⊆ used_xmm (reg_alloc g')).
Proof.
  split; [exact init_pool_inv|]. split; [exact free_all_inv|].
  split; [|split].
  - intros key ra reg ra' Hinv Halloc. split.
    + eapply allocate_xmm_inv; eassumption.
    + eapply allocate_xmm_mono; eassumption.
  - intros n g reg g' Hinv Hrun.
    destruct (preserves_evaluate_node _ _ _ _ Hrun). auto.
  - intros n g g' Hinv Hrun.
    destruct (preserves_visit _ _ _ _ Hrun). auto.
Qed.

Lemma pool_partition_preserved_witness :
  ∃ g', visit (Return (Some (BinOp (Name "a") Add (Name "b"))))
          (ASMGenerator_init "add" ["a"; "b"]) = Ok (tt, g')
        ∧ pool_inv (reg_alloc g')
        ∧ used_xmm (reg_alloc g') !! "b" = Some "xmm1".
Proof.
  eexists. split; [vm_compute; reflexivity|]. split; [|reflexivity].
  refine (proj1 (proj2 (proj2 (proj2 (proj2 pool_partition_preserved)))
                   (Return (Some (BinOp (Name "a") Add (Name "b"))))
                   (ASMGenerator_init "add" ["a"; "b"]) _
                   (proj1 pool_partition_preserved) _)).
  vm_compute. reflexivity.
Defined.

(** * Properties of the expression visitors *)

(** C3, as the code has it: revisiting a parameter name returns the
    register already assigned to it and leaves the pool as it is, and it
    appends the load instruction once more, the same line as the first
    visit appended. *)
Theorem revisit_Name_reloads (id : string) (g0 g1 g2 : ASMGenerator)
    (reg : string) :
  visit_Name id g0 = Ok (reg, g1) →
  extends g1 g2 →
  ∃ load,
    lines g1 = lines g0 ++ [load]
    ∧ visit_Name id g2 =
      Ok (reg, MkGen (func_name g2) (args g2) (lines g2 ++ [load])
                 (reg_alloc g2) (loop_count g2)).
Proof.
  intros Hfirst Hext.
  pose proof (preserves_visit_Name id _ _ _ Hfirst) as Hext01.
  assert (args g2 = args g0) as Hargs
    by (rewrite (ext_args _ _ Hext); exact (ext_args _ _ Hext01)).
  unfold visit_Name at 1. unfold visit_Name in Hfirst. rewrite Hargs.
  destruct (list_index id (args g0)) as [idx|]; [|discriminate].
  destruct (GENERAL_REGS !! idx) as [greg|]; [|discriminate].
  revert Hfirst. run_steps. unfold allocate.
  destruct (allocate_xmm id (reg_alloc g0)) as [[r ra]|e] eqn:Halloc;
    [|discriminate].
  intros [= -> <-]. cbn [lines reg_alloc] in *.
  eexists. split; [reflexivity|].
  apply allocate_xmm_bound in Halloc.
  eapply lookup_weaken in Halloc; [|exact (ext_used _ _ Hext)].
  cbn [reg_alloc] in Halloc.
  rewrite (allocate_xmm_hit _ _ _ Halloc), Hargs. reflexivity.
Qed.

Lemma revisit_Name_reloads_witness :
  ∃ g1 load,
    visit_Name "a" (ASMGenerator_init "f" ["a"]) = Ok ("xmm0", g1)
    ∧ visit_Name "a" g1 =
      Ok ("xmm0", MkGen (func_name g1) (args g1) (lines g1 ++ [load])
                    (reg_alloc g1) (loop_count g1)).
Proof.
  eexists.
  destruct (revisit_Name_reloads "a" (ASMGenerator_init "f" ["a"]) _ _ "xmm0"
              ltac:(vm_compute; reflexivity) (reflexivity _))
    as (load & _ & Hsecond).
  exists load. split; [reflexivity|exact Hsecond].
Defined.

(** C3 counterexample: in [def f(a): return a + a] the second reference to
    [a] returns xmm0 again, and the load of [a] is emitted a second time. *)
Lemma revisit_Name_emits_second_load :
  ∃ g1 g2,
    visit_Name "a" (ASMGenerator_init "f" ["a"]) = Ok ("xmm0", g1)
    ∧ visit_Name "a" g1 = Ok ("xmm0", g2)
    ∧ lines g1 = ["    movq xmm0, rdi    ; Load argument a"]
    ∧ lines g2 = ["    movq xmm0, rdi    ; Load argument a";
                  "    movq xmm0, rdi    ; Load argument a"]
    ∧ transpile_to_asm
        (FunctionDef "f" ["a"]
           [Return (Some (BinOp (Name "a") Add (Name "a")))])
      = Ok (String.concat newline
              ["section .text"; "global f"; "f:"; "    ; Function prologue";
               "    push rbp"; "    mov rbp, rsp";
               "    ; Assume float args in rdi, rsi, rdx, rcx, r8, r9";
               "    movq xmm0, rdi    ; Load argument a";
               "    movq xmm0, rdi    ; Load argument a";
               "    addsd xmm0, xmm0    ; add";
               "    ; Function epilogue"; "    pop rbp"; "    ret"]).
Proof.
  do 2 eexists. split; [vm_compute; reflexivity|].
  split; [vm_compute; reflexivity|].
  split; [reflexivity|]. split; [reflexivity|].
  vm_compute. reflexivity.
Qed.

Lemma string_app_inj (prefix s1 s2 : string) :
  prefix +:+ s1 = prefix +:+ s2 → s1 = s2.
Proof. induction prefix as [|c prefix IH]; simpl; [done|]. intros [= H]. auto. Qed.

Lemma string_length_app (s1 s2 : string) :
  String.length (s1 +:+ s2) = String.length s1 + String.length s2.
Proof. induction s1 as [|c s1 IH]; simpl; [done|]. by rewrite IH. Qed.

Lemma string_app_inj_r (s1 s2 suffix : string) :
  s1 +:+ suffix = s2 +:+ suffix → s1 = s2.
Proof.
  revert s2. induction s1 as [|c1 s1 IH]; intros [|c2 s2]; simpl.
  - done.
  - intros H%(f_equal String.length). simpl in H.
    rewrite !string_length_app in H. simpl in H. lia.
  - intros H%(f_equal String.length). simpl in H.
    rewrite !string_length_app in H. simpl in H. lia.
  - intros [= -> H]. f_equal. auto.
Qed.

(** The register a literal is given is the one bound to its key, and the
    literal has a bit pattern. *)
Lemma visit_Constant_bound value g reg g' :
  visit_Constant value g = Ok (reg, g') →
  used_xmm (reg_alloc g') !! ("const_" +:+ py_str value) = Some reg
  ∧ ∃ hexval, float_to_hex value = Ok hexval.
Proof.
  unfold visit_Constant, py_format.
  destruct (exceeds_str_digits value); [discriminate|].
  intros (xmm & g1 & Halloc & Hrest)%bind_Ok.
  destruct (float_to_hex value) as [hexval|]; [|discriminate].
  split; [|eauto].
  assert (xmm = reg ∧ reg_alloc g' = reg_alloc g1) as [-> ->].
  { revert Hrest. run_steps. intros [= -> <-]. done. }
  unfold allocate in Halloc.
  destruct (allocate_xmm _ (reg_alloc g)) as [[r ra]|e] eqn:Hxmm;
    [|discriminate].
  injection Halloc as -> <-. eapply allocate_xmm_bound, Hxmm.
Qed.

(** The text of an int is made of digits and a minus sign. *)
Lemma int_text_pretty_N_go (x : N) (s : string) :
  int_text s = true → int_text (pretty_N_go x s) = true.
Proof.
  revert s. induction (N.lt_wf_0 x) as [x _ IH]; intros s Hs.
  destruct (decide (x = 0%N)) as [->|Hx]; [by rewrite pretty_N_go_0|].
  rewrite pretty_N_go_step by lia. apply IH; [apply N.div_lt; lia|].
  simpl. rewrite Hs. unfold pretty_N_char.
  by repeat case_match.
Qed.

Lemma int_text_pretty (n : Z) : int_text (pretty n) = true.
Proof.
  assert (∀ p : positive, int_text (pretty p) = true) as Hpos.
  { intros p. unfold pretty, pretty_positive, pretty, pretty_N.
    rewrite decide_False by done. by apply int_text_pretty_N_go. }
  unfold pretty, pretty_Z. destruct n as [|p|p]; [reflexivity|apply Hpos|].
  simpl. apply Hpos.
Qed.

(** Among the literals that have a bit pattern, the text decides the
    pattern: an int prints as itself, a bool as [True] or [False], and the
    text of a float reads back as its pattern and is no text of an int. *)
Lemma same_text_same_bits (v1 v2 : constant) (h1 h2 : string) :
  literal_ok v1 = true → literal_ok v2 = true →
  float_to_hex v1 = Ok h1 → float_to_hex v2 = Ok h2 →
  py_str v1 = py_str v2 → double_bits v1 = double_bits v2.
Proof.
  intros Hok1 Hok2 Hhex1 Hhex2 Htext.
  assert (∀ f, float_repr_ok f = true →
               int_text (float_str f) = false
               ∧ float_of_text (float_str f) = Some (float_bits f))
    as Hfloat.
  { intros f [Hint Hread]%andb_true_iff. split; [by apply negb_true_iff|].
    destruct (float_of_text (float_str f)) as [bits|]; [|discriminate].
    by apply Z.eqb_eq in Hread as ->. }
  assert (∀ b, int_text (py_str (CBool b)) = false
               ∧ float_of_text (py_str (CBool b)) = None) as Hbool
    by (intros []; split; reflexivity).
  destruct v1 as [n1|f1|b1|s1|], v2 as [n2|f2|b2|s2|];
    try discriminate Hhex1; try discriminate Hhex2; simpl in Htext.
  - by apply (inj pretty) in Htext as ->.
  - destruct (Hfloat f2 Hok2) as [Hint _].
    rewrite <- Htext, int_text_pretty in Hint. discriminate.
  - destruct (Hbool b2) as [Hint _]. simpl py_str in Hint.
    destruct b2; rewrite <- Htext, int_text_pretty in Hint; discriminate.
  - destruct (Hfloat f1 Hok1) as [Hint _].
    rewrite Htext, int_text_pretty in Hint. discriminate.
  - destruct (Hfloat f1 Hok1) as [_ Hread1].
    destruct (Hfloat f2 Hok2) as [_ Hread2].
    simpl. rewrite Htext in Hread1. congruence.
  - destruct (Hfloat f1 Hok1) as [_ Hread]. destruct (Hbool b2) as [_ Hnone].
    simpl py_str in Hnone.
    destruct b2; rewrite Htext, Hnone in Hread; discriminate.
  - destruct (Hbool b1) as [Hint _]. simpl py_str in Hint.
    destruct b1; rewrite Htext, int_text_pretty in Hint; discriminate.
  - destruct (Hfloat f2 Hok2) as [_ Hread]. destruct (Hbool b1) as [_ Hnone].
    simpl py_str in Hnone.
    destruct b1; rewrite <- Htext, Hnone in Hread; discriminate.
  - destruct b1, b2; try reflexivity; discriminate.
Qed.

(** C5, as the code has it: the key of a literal is the text
    [const_<str(value)>], so two literal occurrences of one compilation are
    given the same register exactly when their values print as the same
    text.  The text of a literal decides its bit pattern, so literals with
    distinct bit patterns are given distinct registers; literals with the
    same pattern and different texts are given distinct registers too. *)
Theorem constants_share_register_iff_same_text
    (v1 v2 : constant) (g0 g1 g2 g3 : ASMGenerator) (r1 r2 : string) :
  pool_inv (reg_alloc g0) →
  visit_Constant v1 g0 = Ok (r1, g1) →
  extends g1 g2 →
  visit_Constant v2 g2 = Ok (r2, g3) →
  (r1 = r2 ↔ py_str v1 = py_str v2)
  ∧ (literal_ok v1 = true → literal_ok v2 = true →
     double_bits v1 ≠ double_bits v2 → r1 ≠ r2).
Proof.
  intros Hinv0 Hfirst Hext Hsecond.
  pose proof (preserves_visit_Constant _ _ _ _ Hfirst) as Hext01.
  pose proof (preserves_visit_Constant _ _ _ _ Hsecond) as Hext23.
  assert (pool_inv (reg_alloc g3)) as Hinv3
    by (apply (ext_inv _ _ Hext23), (ext_inv _ _ Hext),
          (ext_inv _ _ Hext01), Hinv0).
  apply visit_Constant_bound in Hfirst as [Hfirst [h1 Hhex1]].
  apply visit_Constant_bound in Hsecond as [Hsecond [h2 Hhex2]].
  eapply lookup_weaken in Hfirst;
    [|etrans; [exact (ext_used _ _ Hext)|exact (ext_used _ _ Hext23)]].
  assert (r1 = r2 → py_str v1 = py_str v2) as Htext.
  { intros <-. eapply string_app_inj, (inv_injective _ Hinv3); eassumption. }
  split; [split; [exact Htext|]|].
  - intros Heq. rewrite Heq in Hfirst. congruence.
  - intros Hok1 Hok2 Hbits Hreg. apply Hbits.
    eapply same_text_same_bits; eauto.
Qed.

Lemma constants_share_register_iff_same_text_witness :
  ∃ g1 g3 r1 r2,
    visit_Constant (CFloat float_1_5) (ASMGenerator_init "f" [])
    = Ok (r1, g1)
    ∧ visit_Constant (CFloat float_2_5) g1 = Ok (r2, g3)
    ∧ (r1 = r2 ↔ py_str (CFloat float_1_5) = py_str (CFloat float_2_5))
    ∧ r1 ≠ r2.
Proof.
  edestruct (constants_share_register_iff_same_text
               (CFloat float_1_5) (CFloat float_2_5)
               (ASMGenerator_init "f" [])) as [Hiff Hdistinct];
    [ exact init_pool_inv | vm_compute; reflexivity | reflexivity
    | vm_compute; reflexivity | ].
  do 4 eexists.
  split; [vm_compute; reflexivity|]. split; [vm_compute; reflexivity|].
  split; [exact Hiff|].
  apply Hdistinct; [vm_compute; reflexivity..|]. discriminate.
Defined.

(** C5 counterexample: in [def f(): return 1 + 1.0] the literals [1] and
    [1.0] have the same 64-bit pattern and are given different registers. *)
Lemma same_bits_distinct_registers :
  float_to_hex (CInt 1) = Ok "0x3ff0000000000000"
  ∧ float_to_hex (CFloat float_one) = Ok "0x3ff0000000000000"
  ∧ literal_ok (CFloat float_one) = true
  ∧ ∃ g1 g2,
      visit_Constant (CInt 1) (ASMGenerator_init "f" []) = Ok ("xmm0", g1)
      ∧ visit_Constant (CFloat float_one) g1 = Ok ("xmm1", g2)
      ∧ lines g2 =
          ["    mov rax, 0x3ff0000000000000    ; Load constant 1";
           "    movq xmm0, rax";
           "    mov rax, 0x3ff0000000000000    ; Load constant 1.0";
           "    movq xmm1, rax"].
Proof.
  split; [reflexivity|]. split; [reflexivity|].
  split; [vm_compute; reflexivity|].
  do 2 eexists. split; [vm_compute; reflexivity|].
  split; vm_compute; reflexivity.
Qed.

(** C1, as the code has it: every binary operation lowered as an operand
    returns the register bound to the one key [tmp]; the binary operations
    of one compilation therefore all return the same register. *)
Theorem binops_share_tmp_register
    (lhs1 rhs1 lhs2 rhs2 : node) (op1 op2 : operator)
    (g0 g1 g2 g3 : ASMGenerator) (reg1 reg2 : string) :
  evaluate_node (BinOp lhs1 op1 rhs1) g0 = Ok (reg1, g1) →
  extends g1 g2 →
  evaluate_node (BinOp lhs2 op2 rhs2) g2 = Ok (reg2, g3) →
  used_xmm (reg_alloc g1) !! "tmp" = Some reg1
  ∧ used_xmm (reg_alloc g3) !! "tmp" = Some reg1
  ∧ reg2 = reg1.
Proof.
  rewrite !evaluate_node_BinOp.
  intros ([] & g0' & _ & Htmp1)%bind_Ok Hext
         ([] & g2' & Hop2 & Htmp2)%bind_Ok.
  unfold allocate in Htmp1, Htmp2.
  destruct (allocate_xmm "tmp" (reg_alloc g0')) as [[r ra]|e] eqn:H1;
    [|discriminate].
  injection Htmp1 as -> <-. apply allocate_xmm_bound in H1.
  split; [exact H1|].
  eapply lookup_weaken in H1;
    [|etrans; [exact (ext_used _ _ Hext)
              |exact (ext_used _ _ (preserves_visit_BinOp _ _ _ _ _ _ Hop2))]].
  cbn [reg_alloc] in H1.
  rewrite (allocate_xmm_hit _ _ _ H1) in Htmp2.
  injection Htmp2 as <- <-. done.
Qed.

Lemma binops_share_tmp_register_witness :
  ∃ g1 g3 reg1 reg2,
    evaluate_node (BinOp (Name "a") Add (Name "b"))
      (ASMGenerator_init "f" ["a"; "b"; "c"; "d"]) = Ok (reg1, g1)
    ∧ evaluate_node (BinOp (Name "c") Sub (Name "d")) g1 = Ok (reg2, g3)
    ∧ reg2 = reg1.
Proof.
  do 4 eexists.
  split; [vm_compute; reflexivity|]. split; [vm_compute; reflexivity|].
  eapply (binops_share_tmp_register (Name "a") (Name "b") (Name "c")
            (Name "d") Add Sub (ASMGenerator_init "f" ["a"; "b"; "c"; "d"])).
  - vm_compute. reflexivity.
  - reflexivity.
  - vm_compute. reflexivity.
Defined.

(** C1 counterexample: in [def f(a, b, c, d): return (a + b) * (c - d)] the
    two operand operations are distinct nodes and both return xmm2, so the
    product is emitted as [mulsd xmm2, xmm2]. *)
Lemma sibling_binops_collide :
  BinOp (Name "a") Add (Name "b") ≠ BinOp (Name "c") Sub (Name "d")
  ∧ (∃ g1 g2,
       evaluate_node (BinOp (Name "a") Add (Name "b"))
         (ASMGenerator_init "f" ["a"; "b"; "c"; "d"]) = Ok ("xmm2", g1)
       ∧ evaluate_node (BinOp (Name "c") Sub (Name "d")) g1
         = Ok ("xmm2", g2))
  ∧ transpile_to_asm
      (FunctionDef "f" ["a"; "b"; "c"; "d"]
         [Return (Some (BinOp (BinOp (Name "a") Add (Name "b")) Mult
                          (BinOp (Name "c") Sub (Name "d"))))])
    = Ok (String.concat newline
            ["section .text"; "global f"; "f:"; "    ; Function prologue";
             "    push rbp"; "    mov rbp, rsp";
             "    ; Assume float args in rdi, rsi, rdx, rcx, r8, r9";
             "    movq xmm0, rdi    ; Load argument a";
             "    movq xmm1, rsi    ; Load argument b";
             "    addsd xmm0, xmm1    ; add";
             "    movq xmm3, rdx    ; Load argument c";
             "    movq xmm4, rcx    ; Load argument d";
             "    subsd xmm3, xmm4    ; sub";
             "    mulsd xmm2, xmm2    ; mul";
             "    ; Function epilogue"; "    pop rbp"; "    ret"]).
Proof.
  split; [discriminate|]. split.
  - do 2 eexists. split; vm_compute; reflexivity.
  - vm_compute. reflexivity.
Qed.

(** * Properties of the statement visitors *)

Lemma bind_assoc {A B C} (m : M A) (k : A → M B) (h : B → M C) g :
  ((m ≫= k) ≫= h) g = (m ≫= λ a, k a ≫= h) g.
Proof. rewrite !bind_unfold. destruct (m g) as [[a g1]|e]; reflexivity. Qed.

Lemma bind_ext {A B} (m1 m2 : M A) (k1 k2 : A → M B) g :
  m1 g = m2 g → (∀ a g1, k1 a g1 = k2 a g1) →
  (m1 ≫= k1) g = (m2 ≫= k2) g.
Proof.
  intros Hm Hk. rewrite !bind_unfold, Hm.
  destruct (m2 g) as [[a g1]|e]; [apply Hk|reflexivity].
Qed.

Lemma visit_If_flattened test body orelse g :
  visit (If test body orelse) g = visit_each (test :: body ++ orelse) g.
Proof.
  rewrite visit_eq. simpl visit_each. apply bind_ext; [reflexivity|].
  intros _ g1. symmetry. apply visit_each_app.
Qed.

(** C2, as the code has it: a conditional in a function body raises no
    error of its own.  [If] has no visitor, so the generic traversal lowers
    its test, its then-branch and its else-branch in this order, and the
    function compiles exactly like the function whose body has these three
    in place of the conditional. *)
Theorem if_statement_is_flattened
    (name : string) (params : list string) (before after : list node)
    (test : node) (body orelse : list node) :
  (∀ g, visit (If test body orelse) g
        = visit_each (test :: body ++ orelse) g)
  ∧ transpile_to_asm
      (FunctionDef name params (before ++ If test body orelse :: after))
    = transpile_to_asm
        (FunctionDef name params
           (before ++ test :: body ++ orelse ++ after)).
Proof.
  split; [intros g; apply visit_If_flattened|].
  assert (∀ g, visit_each (before ++ If test body orelse :: after) g
               = visit_each (before ++ test :: body ++ orelse ++ after) g)
    as Hbody.
  { intros g. rewrite !visit_each_app. apply bind_ext; [reflexivity|].
    intros _ g1. change (test :: body ++ orelse ++ after)
      with ((test :: body) ++ orelse ++ after).
    rewrite app_assoc, visit_each_app. simpl visit_each at 1.
    apply bind_ext; [|reflexivity]. apply visit_If_flattened. }
  unfold transpile_to_asm. rewrite !visit_eq.
  rewrite (bind_ext _ _ _ _ _ eq_refl
             (λ _ g1, bind_ext _ _ _ _ g1 (Hbody g1) (λ _ _, eq_refl))).
  reflexivity.
Qed.

(** C2 counterexample: [def f(a): if a > 0: return a] compiles without an
    error, and the text has the loads of the test and of the branch. *)
Lemma if_statement_compiles :
  transpile_to_asm
    (FunctionDef "f" ["a"] [If a_positive [Return (Some (Name "a"))] []])
  = Ok (String.concat newline
          ["section .text"; "global f"; "f:"; "    ; Function prologue";
           "    push rbp"; "    mov rbp, rsp";
           "    ; Assume float args in rdi, rsi, rdx, rcx, r8, r9";
           "    movq xmm0, rdi    ; Load argument a";
           "    mov rax, 0x0    ; Load constant 0";
           "    movq xmm1, rax";
           "    movq xmm0, rdi    ; Load argument a";
           "    ; Function epilogue"; "    pop rbp"; "    ret"]).
Proof. vm_compute. reflexivity. Qed.

Lemma format_operand_Ok range_arg n_var :
  format_operand range_arg = Ok n_var → n_var = range_operand range_arg.
Proof.
  destruct range_arg; simpl; try (by intros [= <-]). apply py_format_Ok.
Qed.

Lemma visit_For_range_eq target_id range_arg more_args keywords body orelse g :
  visit (For (Name target_id)
           (Call (Name "range") (range_arg :: more_args) keywords)
           body orelse) g
  = match format_operand range_arg with
    | Raise e => Raise e
    | Ok _ =>
        match visit_each body
                (MkGen (func_name g) (args g)
                   (lines g ++ loop_head (S (loop_count g)) range_arg)
                   (reg_alloc g) (S (loop_count g))) with
        | Ok (_, g2) =>
            Ok (tt, MkGen (func_name g2) (args g2)
                      (lines g2 ++ loop_tail (S (loop_count g)))
                      (reg_alloc g2) (loop_count g2))
        | Raise e => Raise e
        end
    end.
Proof.
  rewrite visit_eq. unfold visit_For, visit_For_with.
  run_steps. rewrite decide_True by reflexivity.
  destruct (format_operand range_arg) as [n_var|] eqn:Hformat;
    [|reflexivity].
  apply format_operand_Ok in Hformat as ->. run_steps.
  rewrite <- !app_assoc. simpl app. unfold loop_head.
  destruct (visit_each body _) as [[[] g2]|e]; [|reflexivity].
  rewrite <- !app_assoc. reflexivity.
Qed.

(** C4, as the code has it: a counted loop appends, in this order, the
    begin comment, the counter initialisation [mov rcx, <n>], the label
    [loop_<id>:], the lines of its body, [dec rcx], [jnz loop_<id>] and the
    end comment, once; its id is the loop counter plus one, so it is larger
    than the id of every loop lowered before it, and the loops of its body
    and the loops lowered after it take larger ids; distinct ids give
    distinct labels. *)
Theorem counted_loop_shape
    (target_id : string) (range_arg : node) (more_args keywords : list node)
    (body orelse : list node) (g g' : ASMGenerator) :
  visit (For (Name target_id)
           (Call (Name "range") (range_arg :: more_args) keywords)
           body orelse) g = Ok (tt, g') →
  let loop_id := S (loop_count g) in
  ∃ body_lines g2,
    visit_each body
      (MkGen (func_name g) (args g) (lines g ++ loop_head loop_id range_arg)
         (reg_alloc g) loop_id) = Ok (tt, g2)
    ∧ lines g2 = (lines g ++ loop_head loop_id range_arg) ++ body_lines
    ∧ lines g' =
        lines g ++ loop_head loop_id range_arg ++ body_lines
        ++ loop_tail loop_id
    ∧ loop_id ≤ loop_count g2
    ∧ loop_count g' = loop_count g2
    ∧ (∀ later, extends g' later → loop_id < S (loop_count later))
    ∧ (∀ other_id,
         "loop_" +:+ pretty other_id +:+ ":"
         = "loop_" +:+ pretty loop_id +:+ ":" →
         other_id = loop_id).
Proof.
  rewrite visit_For_range_eq. intros Hrun loop_id.
  destruct (format_operand range_arg); [|discriminate].
  destruct (visit_each body _) as [[[] g2]|e] eqn:Hbody; [|discriminate].
  injection Hrun as <-.
  destruct (preserves_visit_each_all _ _ _ _ Hbody)
    as [_ _ [body_lines Hlines] Hcount _ _ _].
  cbn [lines loop_count] in *.
  exists body_lines, g2. split; [reflexivity|]. split; [exact Hlines|].
  split; [rewrite Hlines, <- !app_assoc; reflexivity|].
  split; [exact Hcount|]. split; [reflexivity|]. split.
  { intros later [_ _ _ Hlater _ _ _]. cbn [loop_count] in Hlater.
    unfold loop_id. lia. }
  intros other_id Heq%string_app_inj%string_app_inj_r.
  exact (inj pretty _ _ Heq).
Qed.

Lemma counted_loop_shape_witness :
  ∃ g',
    visit (For (Name "i") (Call (Name "range") [Constant (CInt 3)] [])
             [Return (Some (Name "a"))] [])
      (ASMGenerator_init "f" ["a"]) = Ok (tt, g')
    ∧ lines g' =
        ["    ; Begin loop 1"; "    mov rcx, 3    ; loop counter"; "loop_1:";
         "    movq xmm0, rdi    ; Load argument a";
         "    dec rcx"; "    jnz loop_1"; "    ; End loop 1"].
Proof.
  eexists. split; [vm_compute; reflexivity|].
  destruct (counted_loop_shape "i" (Constant (CInt 3)) [] []
              [Return (Some (Name "a"))] [] (ASMGenerator_init "f" ["a"]) _
              ltac:(vm_compute; reflexivity))
    as (body_lines & g2 & Hbody & Hlines2 & Hlines & _).
  vm_compute in Hbody. injection Hbody as <-.
  simpl in Hlines2. injection Hlines2 as <-. exact Hlines.
Defined.

(** C4 counterexample: for [for i in range(3): pass] the counter
    initialisation is emitted before the label, not after it, and both sit
    between two comment lines. *)
Lemma counter_initialised_before_label :
  visit (For (Name "i") (Call (Name "range") [Constant (CInt 3)] [])
           [pass_stmt] [])
    (ASMGenerator_init "f" [])
  = Ok (tt, MkGen "f" []
              ["    ; Begin loop 1";
               "    mov rcx, 3    ; loop counter";
               "loop_1:";
               "    dec rcx";
               "    jnz loop_1";
               "    ; End loop 1"]
              RegisterAllocator.init 1).
Proof. vm_compute. reflexivity. Qed.

(** C9, as the code has it: a for-statement whose target is a plain name
    and whose iterator is not a call node appends the begin-loop and the
    end-loop comment only; its body is skipped and nothing is raised. *)
Theorem for_without_call_skips_body
    (target_id : string) (iter : node) (body orelse : list node)
    (g : ASMGenerator) :
  (∀ func call_args keywords, iter ≠ Call func call_args keywords) →
  visit (For (Name target_id) iter body orelse) g
  = Ok (tt, MkGen (func_name g) (args g)
              (lines g ++ ["    ; Begin loop " +:+ pretty (S (loop_count g));
                           "    ; End loop " +:+ pretty (S (loop_count g))])
              (reg_alloc g) (S (loop_count g))).
Proof.
  intros Hiter. rewrite visit_eq. unfold visit_For, visit_For_with.
  destruct iter; try (run_steps; rewrite <- app_assoc; reflexivity).
  exfalso. eapply Hiter. reflexivity.
Qed.

Lemma for_without_call_skips_body_witness :
  visit (For (Name "x") (Name "xs") [Return (Some (Name "undefined"))] [])
    (ASMGenerator_init "f" ["xs"])
  = Ok (tt, MkGen "f" ["xs"] ["    ; Begin loop 1"; "    ; End loop 1"]
              RegisterAllocator.init 1).
Proof.
  apply (for_without_call_skips_body "x" (Name "xs")
           [Return (Some (Name "undefined"))] []
           (ASMGenerator_init "f" ["xs"])).
  intros func call_args keywords. discriminate.
Defined.

(** C9 counterexample: [for a, b in pairs: pass] has an iterator that is
    not a call, and lowering it raises [AttributeError], because the target
    is a tuple and has no [id]. *)
Lemma for_tuple_target_raises :
  visit (For (Other "Tuple" [Name "a"; Name "b"]) (Name "pairs")
           [pass_stmt] [])
    (ASMGenerator_init "f" ["pairs"])
  = Raise AttributeError.
Proof. vm_compute. reflexivity. Qed.

(** * Determinism *)

Lemma in_order_init : in_order [] RegisterAllocator.init.
Proof.
  split; simpl.
  - constructor.
  - lia.
  - reflexivity.
  - intros key reg. rewrite lookup_empty. split; [discriminate|].
    intros (i & Hi & _). by rewrite lookup_nil in Hi.
Qed.

Lemma in_order_bound order ra key :
  in_order order ra → key ∈ order ↔ is_Some (used_xmm ra !! key).
Proof.
  intros [Hnd Hlen Hfree Hused]. split.
  - intros [i Hi]%list_elem_of_lookup.
    destruct (lookup_lt_is_Some_2 XMM_REGS i) as [reg Hreg].
    { apply lookup_lt_Some in Hi. lia. }
    exists reg. apply Hused. eauto.
  - intros [reg (i & Hi & _)%Hused]. eapply list_elem_of_lookup_2, Hi.
Qed.

Lemma allocate_xmm_in_order order name ra reg ra' :
  in_order order ra → allocate_xmm name ra = Ok (reg, ra') →
  in_order (add_key order name) ra'.
Proof.
  intros Hord Halloc. pose proof (in_order_bound _ _ name Hord) as Hin.
  unfold add_key.
  apply allocate_xmm_Ok in Halloc
    as [[Hhit ->] | (Hnone & rest & Hfree & ->)].
  - rewrite decide_True by (apply Hin; eauto). exact Hord.
  - assert (name ∉ order) as Hnotin
      by (rewrite Hin, Hnone; by intros [? ?]).
    rewrite decide_False by done.
    destruct Hord as [Hnd Hlen Hfree' Hused]. rewrite Hfree' in Hfree.
    assert (XMM_REGS !! length order = Some reg) as Hreg.
    { rewrite <- (Nat.add_0_r (length order)), <- lookup_drop, Hfree.
      reflexivity. }
    split; simpl.
    + apply NoDup_app. split; [done|]. split; [|apply NoDup_singleton].
      intros x Hx ->%list_elem_of_singleton. done.
    + rewrite length_app. apply lookup_lt_Some in Hreg.
      change (length XMM_REGS) with 16 in Hreg. simpl. lia.
    + rewrite length_app. simpl.
      rewrite <- drop_drop, Hfree. reflexivity.
    + intros key r. destruct (decide (name = key)) as [<-|Hne].
      * rewrite lookup_insert_eq. split.
        -- intros [= <-]. exists (length order).
           rewrite lookup_app_r, Nat.sub_diag by lia. done.
        -- intros (i & Hi & Hr).
           destruct (decide (i < length order)) as [Hlt|Hge].
           ++ rewrite lookup_app_l in Hi by done.
              exfalso. eapply Hnotin, list_elem_of_lookup_2, Hi.
           ++ assert (i = length order) as ->.
              { apply lookup_lt_Some in Hi. rewrite length_app in Hi.
                simpl in Hi. lia. }
              congruence.
      * rewrite lookup_insert_ne by done. rewrite Hused. split.
        -- intros (i & Hi & Hr). exists i. split; [|done].
           by apply lookup_app_l_Some.
        -- intros (i & Hi & Hr). exists i. split; [|done].
           apply lookup_app_Some in Hi as [Hi | [_ Hi]]; [done|].
           apply list_lookup_singleton_Some in Hi as [_ ?]. done.
Qed.

Lemma tracks_bind {A B} K1 K2 (m : M A) (k : A → M B) :
  tracks K1 m → (∀ a, tracks K2 (k a)) → tracks (K1 ++ K2) (m ≫= k).
Proof.
  intros Hm Hk order g b g' Hord (a & g1 & H1 & H2)%bind_Ok.
  rewrite foldl_app. eapply Hk; [|exact H2]. eapply Hm; eassumption.
Qed.

Lemma tracks_then {A B} K (m : M A) (k : A → M B) :
  tracks [] m → (∀ a, tracks K (k a)) → tracks K (m ≫= k).
Proof. intros Hm Hk. by apply (tracks_bind [] K). Qed.

Lemma tracks_first {A B} K (m : M A) (k : A → M B) :
  tracks K m → (∀ a, tracks [] (k a)) → tracks K (m ≫= k).
Proof.
  intros Hm Hk. rewrite <- (app_nil_r K). by apply tracks_bind.
Qed.

Lemma tracks_ret {A} (a : A) : tracks [] (mret a).
Proof. intros order g a' g' Hord [= _ <-]. exact Hord. Qed.

Lemma tracks_raise {A} K e : tracks K (@raise A e).
Proof. intros order g a g' _ [=]. Qed.

Lemma tracks_emit line : tracks [] (emit line).
Proof. intros order g [] g' Hord [= <-]. exact Hord. Qed.

Lemma tracks_next_loop_id : tracks [] next_loop_id.
Proof. intros order g a g' Hord [= _ <-]. exact Hord. Qed.

Lemma tracks_get_func_name : tracks [] get_func_name.
Proof. intros order g a g' Hord [= _ <-]. exact Hord. Qed.

Lemma tracks_allocate name : tracks [name] (allocate name).
Proof.
  intros order g reg g' Hord. unfold allocate.
  destruct (allocate_xmm name (reg_alloc g)) as [[r ra]|e] eqn:Halloc;
    intros [= -> <-].
  simpl. eapply allocate_xmm_in_order; eassumption.
Qed.

(** Closes a tail of steps that request nothing. *)
Ltac tracks_quiet :=
  repeat first
    [ apply tracks_emit | apply tracks_ret | apply tracks_raise
    | apply tracks_next_loop_id | apply tracks_get_func_name
    | apply tracks_then; [ | intros ? ] ].

Lemma tracks_visit_Name id : tracks [id] (visit_Name id).
Proof.
  intros order g a g'. unfold visit_Name.
  destruct (list_index id (args g)) as [idx|]; [|discriminate].
  destruct (GENERAL_REGS !! idx) as [reg|]; [|discriminate].
  revert order g a g'.
  apply (tracks_first [id] (allocate id)); [apply tracks_allocate|].
  intros xmm. tracks_quiet.
Qed.

Lemma tracks_visit_Constant value :
  tracks ["const_" +:+ py_str value] (visit_Constant value).
Proof.
  unfold visit_Constant, py_format.
  destruct (exceeds_str_digits value); [apply tracks_raise|].
  apply tracks_first; [apply tracks_allocate|]. intros xmm.
  destruct (float_to_hex value); tracks_quiet.
Qed.

Lemma tracks_visit_BinOp lhs op rhs :
  tracks (evaluate_keys lhs) (evaluate_node lhs) →
  tracks (evaluate_keys rhs) (evaluate_node rhs) →
  tracks (evaluate_keys lhs ++ evaluate_keys rhs) (visit_BinOp lhs op rhs).
Proof.
  intros Hl Hr. unfold visit_BinOp, visit_BinOp_with.
  apply tracks_bind; [exact Hl|]. intros l.
  apply tracks_first; [exact Hr|]. intros r.
  apply tracks_then; [destruct op; simpl; tracks_quiet|].
  intros line. apply tracks_emit.
Qed.

Lemma tracks_evaluate_node n : tracks (evaluate_keys n) (evaluate_node n).
Proof.
  node_induction n; simpl evaluate_keys; try apply tracks_raise.
  - rewrite evaluate_node_BinOp, app_assoc.
    apply tracks_bind; [by apply tracks_visit_BinOp|].
    intros _. apply tracks_allocate.
  - apply tracks_visit_Name.
  - apply tracks_visit_Constant.
Qed.

Lemma tracks_visit_each l :
  Forall (λ n, tracks (visit_keys n) (visit n)) l →
  tracks (flat_map visit_keys l) (visit_each l).
Proof.
  induction 1 as [|x l Hx _ IH]; simpl; [apply tracks_ret|].
  apply tracks_bind; [done|]. intros _. exact IH.
Qed.

Lemma tracks_visit n : tracks (visit_keys n) (visit n).
Proof.
  node_induction n; rewrite visit_eq; simpl visit_keys.
  - unfold generate_prologue, generate_epilogue.
    apply tracks_then; [tracks_quiet|]. intros _.
    apply tracks_first; [by apply tracks_visit_each|]. intros _.
    tracks_quiet.
  - apply tracks_raise.
  - done.
  - apply tracks_bind; [by apply tracks_visit_each|]. intros _. done.
  - unfold visit_For, visit_For_with.
    apply tracks_then; [tracks_quiet|]. intros loop_id.
    apply tracks_then; [tracks_quiet|]. intros _.
    destruct target; try apply tracks_raise.
    destruct iter as [| | | | | | | |func call_args kw| |]; try apply tracks_emit.
    destruct func; try apply tracks_raise.
    destruct call_args as [|range_arg call_args].
    + case_decide; [apply tracks_raise|apply tracks_emit].
    + case_decide; [|apply tracks_emit].
      destruct (format_operand range_arg); [|apply tracks_raise].
      do 2 (apply tracks_then; [apply tracks_emit|intros _]).
      apply tracks_first; [by apply tracks_visit_each|]. intros _.
      tracks_quiet.
  - apply tracks_bind; [done|]. intros _.
    apply tracks_bind; [by apply tracks_visit_each|]. intros _.
    by apply tracks_visit_each.
  - apply tracks_visit_BinOp; apply tracks_evaluate_node.
  - apply tracks_first; [apply tracks_visit_Name|]. intros _.
    apply tracks_ret.
  - apply tracks_first; [apply tracks_visit_Constant|]. intros _.
    apply tracks_ret.
  - apply tracks_bind; [done|]. intros _.
    apply tracks_bind; [by apply tracks_visit_each|]. intros _.
    by apply tracks_visit_each.
  - by apply tracks_visit_each.
  - by apply tracks_visit_each.
Qed.

(** C8: compiling the same function twice, each time with a generator and
    a pool built afresh, gives the same result, and so the same text.  No
    ordering is left open: in a run that returns, the i-th distinct key the
    traversal requests is bound to the i-th register of the fixed sequence,
    and the free sequence is what remains of it. *)
Theorem compilation_deterministic
    (name : string) (params : list string) (body : list node)
    (gen1 gen2 : ASMGenerator) :
  gen1 = ASMGenerator_init name params →
  gen2 = ASMGenerator_init name params →
  let func_node := FunctionDef name params body in
  visit func_node gen1 = visit func_node gen2
  ∧ ∀ g',
      visit func_node gen1 = Ok (tt, g') →
      let order := first_requests (visit_keys func_node) in
      transpile_to_asm func_node = Ok (String.concat newline (lines g'))
      ∧ free_xmm (reg_alloc g') = drop (length order) XMM_REGS
      ∧ ∀ key reg,
          used_xmm (reg_alloc g') !! key = Some reg ↔
          ∃ i, order !! i = Some key ∧ XMM_REGS !! i = Some reg.
Proof.
  intros -> -> func_node. split; [reflexivity|].
  intros g' Hrun order.
  destruct (tracks_visit func_node [] (ASMGenerator_init name params) _ _
              in_order_init Hrun) as [_ _ Hfree Hused].
  split; [|split; [exact Hfree|exact Hused]].
  subst func_node. unfold transpile_to_asm. rewrite Hrun. reflexivity.
Qed.

Lemma compilation_deterministic_witness :
  ∃ g',
    visit (FunctionDef "add" ["a"; "b"]
             [Return (Some (BinOp (Name "a") Add (Name "b")))])
      (ASMGenerator_init "add" ["a"; "b"]) = Ok (tt, g')
    ∧ (used_xmm (reg_alloc g') !! "b" = Some "xmm1" ↔
       ∃ i, ["a"; "b"] !! i = Some "b" ∧ XMM_REGS !! i = Some "xmm1").
Proof.
  eexists. split; [vm_compute; reflexivity|].
  refine (proj2 (proj2 (proj2
            (compilation_deterministic "add" ["a"; "b"]
               [Return (Some (BinOp (Name "a") Add (Name "b")))]
               (ASMGenerator_init "add" ["a"; "b"])
               (ASMGenerator_init "add" ["a"; "b"]) eq_refl eq_refl)
            _ _)) "b" "xmm1").
  vm_compute. reflexivity.
Defined.

(** * Utilities *)

Lemma land_lnot_low_bits (x k : Z) :
  (0 ≤ k)%Z → Z.land x (Z.lnot (2 ^ k - 1)) = (2 ^ k * (x / 2 ^ k))%Z.
Proof.
  intros Hk. rewrite Z.sub_1_r, <- Z.ones_equiv.
  rewrite <- Z.ldiff_land, Z.ldiff_ones_r by done.
  rewrite Z.shiftl_mul_pow2, Z.shiftr_div_pow2 by done. ring.
Qed.

Lemma align_power_of_two (value k : Z) :
  (0 ≤ k)%Z →
  align value (2 ^ k) = (2 ^ k * ((value + (2 ^ k - 1)) / 2 ^ k))%Z.
Proof. intros Hk. unfold align. by apply land_lnot_low_bits. Qed.

(** X1: for an alignment that is a power of two, [align] returns the least
    multiple of the alignment that is not below the value, for negative
    values too; a value that is already a multiple is returned as it is. *)
Theorem align_least_multiple (value k : Z) :
  (0 ≤ k)%Z →
  let alignment := (2 ^ k)%Z in
  (alignment | align value alignment)%Z
  ∧ (value ≤ align value alignment < value + alignment)%Z
  ∧ (∀ m, (alignment | m)%Z → (value ≤ m)%Z →
          (align value alignment ≤ m)%Z)
  ∧ ((alignment | value)%Z → align value alignment = value).
Proof.
  intros Hk. cbv zeta. rewrite (align_power_of_two value k Hk).
  set (alignment := (2 ^ k)%Z).
  assert (0 < alignment)%Z as Hpos by (apply Z.pow_pos_nonneg; lia).
  pose proof (Z.div_mod (value + (alignment - 1)) alignment ltac:(lia))
    as Hdiv.
  pose proof (Z.mod_pos_bound (value + (alignment - 1)) alignment Hpos)
    as Hmod.
  set (q := ((value + (alignment - 1)) / alignment)%Z) in *.
  assert (value ≤ alignment * q < value + alignment)%Z as Hbounds by lia.
  split; [exists q; lia|]. split; [exact Hbounds|]. split.
  - intros m [c ->] Hm.
    assert (q < c + 1)%Z by (apply (Z.mul_lt_mono_pos_l alignment); lia).
    rewrite (Z.mul_comm c). apply Z.mul_le_mono_nonneg_l; lia.
  - intros [c Hc]. rewrite Hc in Hbounds.
    assert (q < c + 1)%Z by (apply (Z.mul_lt_mono_pos_l alignment); lia).
    assert (c - 1 < q)%Z by (apply (Z.mul_lt_mono_pos_l alignment); lia).
    replace q with c by lia. lia.
Qed.

Lemma align_least_multiple_witness :
  (8 | align 13 8)%Z ∧ (13 ≤ align 13 8 < 13 + 8)%Z.
Proof.
  destruct (align_least_multiple 13 3 ltac:(lia)) as (Hdiv & Hbounds & _).
  exact (conj Hdiv Hbounds).
Defined.

Lemma py_slice_chunk {A} (lst : list A) (start n : nat) :
  start ≤ length lst →
  py_slice lst (Z.of_nat start) (Z.of_nat start + Z.of_nat n)
  = take n (drop start lst).
Proof.
  intros Hstart. unfold py_slice, slice_bound.
  rewrite !(proj2 (Z.ltb_ge _ _)) by lia.
  rewrite Nat2Z.id, <- Nat2Z.inj_add, Nat2Z.id.
  rewrite (Nat.min_l start) by done.
  destruct (decide (start + n ≤ length lst)) as [Hfit|Hlast].
  - rewrite Nat.min_l by done. f_equal. lia.
  - rewrite Nat.min_r by lia.
    rewrite !take_ge; [done| |]; rewrite length_drop; lia.
Qed.

Lemma chunks_concat {A} (n count : nat) (lst : list A) :
  length lst ≤ count * n →
  concat (map (λ k, take n (drop (k * n) lst)) (seq 0 count)) = lst.
Proof.
  revert lst. induction count as [|count IH]; intros lst Hlen.
  - simpl in *. by destruct lst; [|simpl in Hlen; lia].
  - rewrite <- cons_seq, <- fmap_S_seq. simpl.
    rewrite drop_0. change (map ?f (S <$> ?l)) with (f <$> (S <$> l)).
    rewrite <- list_fmap_compose.
    rewrite <- (take_drop n lst) at 2. f_equal.
    rewrite <- (IH (drop n lst)) by (rewrite length_drop; lia).
    f_equal. apply list_fmap_ext. intros _ k _. simpl.
    rewrite drop_drop. reflexivity.
Qed.

(** The number of chunks, and what it says about the starts. *)
Lemma chunk_count_spec (len n : nat) :
  0 < n →
  let count := Z.to_nat ((Z.of_nat len + Z.of_nat n - 1) / Z.of_nat n) in
  len ≤ count * n ∧ ∀ k, k < count → k * n < len.
Proof.
  intros Hn count.
  pose proof (Z.div_mod (Z.of_nat len + Z.of_nat n - 1) (Z.of_nat n)
                ltac:(lia)) as Hdiv.
  pose proof (Z.mod_pos_bound (Z.of_nat len + Z.of_nat n - 1) (Z.of_nat n)
                ltac:(lia)) as Hmod.
  assert (0 ≤ (Z.of_nat len + Z.of_nat n - 1) / Z.of_nat n)%Z as Hq
    by (apply Z.div_pos; lia).
  assert (Z.of_nat count
          = ((Z.of_nat len + Z.of_nat n - 1) / Z.of_nat n)%Z) as Hcount
    by (unfold count; lia).
  rewrite <- Hcount in Hdiv. clear Hcount Hq. split; [nia|].
  intros k Hk. nia.
Qed.

(** X2: for a positive chunk size [chunk_list] cuts the list into
    consecutive pieces that concatenate back to it: the k-th chunk is the
    next [n] elements from position [k * n], no chunk is empty, and every
    chunk but the last has exactly [n] elements. *)
Theorem chunk_list_partitions {A} (lst : list A) (n : Z) :
  (0 < n)%Z →
  ∃ chunks,
    chunk_list lst n = Ok chunks
    ∧ concat chunks = lst
    ∧ ∀ k chunk,
        chunks !! k = Some chunk →
        chunk = take (Z.to_nat n) (drop (k * Z.to_nat n) lst)
        ∧ 0 < length chunk ≤ Z.to_nat n
        ∧ (S k < length chunks → length chunk = Z.to_nat n).
Proof.
  intros Hn. unfold chunk_list, py_range.
  rewrite (proj2 (Z.eqb_neq _ _)) by lia.
  rewrite (proj2 (Z.ltb_lt _ _)) by lia.
  rewrite Z.sub_0_r. eexists. split; [reflexivity|].
  set (n' := Z.to_nat n). replace n with (Z.of_nat n') by (unfold n'; lia).
  assert (0 < n') as Hn' by (unfold n'; lia).
  destruct (chunk_count_spec (length lst) n' Hn') as [Hlen Hstarts].
  set (count := Z.to_nat ((Z.of_nat (length lst) + Z.of_nat n' - 1)
                          / Z.of_nat n')) in *.
  rewrite <- list_fmap_compose.
  assert (∀ k, k < count →
            py_slice lst (0 + Z.of_nat k * Z.of_nat n')
              (0 + Z.of_nat k * Z.of_nat n' + Z.of_nat n')
            = take n' (drop (k * n') lst)) as Hslice.
  { intros k Hk. rewrite Z.add_0_l, <- Nat2Z.inj_mul.
    apply py_slice_chunk. specialize (Hstarts k Hk). lia. }
  assert (((λ i, py_slice lst i (i + Z.of_nat n'))
           ∘ (λ k : nat, (0 + Z.of_nat k * Z.of_nat n')%Z)) <$> seq 0 count
          = (λ k, take n' (drop (k * n') lst)) <$> seq 0 count) as ->.
  { apply list_fmap_ext. intros i k Hk%lookup_seq. simpl.
    apply Hslice. lia. }
  split; [by apply chunks_concat|].
  intros k chunk Hk. rewrite list_lookup_fmap in Hk.
  destruct (seq 0 count !! k) as [k'|] eqn:Hseq; [|discriminate].
  apply lookup_seq in Hseq as [-> Hlt]. simpl in Hk. injection Hk as <-.
  split; [reflexivity|]. pose proof (Hstarts k Hlt) as Hstart.
  rewrite length_take, length_drop, length_fmap, length_seq.
  split; [lia|]. intros Hnext. specialize (Hstarts (S k) Hnext). lia.
Qed.

Lemma chunk_list_partitions_witness :
  ∃ chunks,
    chunk_list [1; 2; 3; 4; 5; 6; 7] 3 = Ok chunks
    ∧ concat chunks = [1; 2; 3; 4; 5; 6; 7].
Proof.
  destruct (chunk_list_partitions [1; 2; 3; 4; 5; 6; 7] 3 ltac:(lia))
    as (chunks & Hrun & Hconcat & _).
  exists chunks. exact (conj Hrun Hconcat).
Defined.

(** X3: a chunk size of zero makes [chunk_list] raise [ValueError], and a
    negative chunk size makes it yield no chunk at all, whatever the list
    holds. *)
Theorem chunk_list_bad_size {A} (lst : list A) (n : Z) :
  (n ≤ 0)%Z →
  chunk_list lst n = if decide (n = 0%Z) then Raise ValueError else Ok [].
Proof.
  intros Hn. unfold chunk_list, py_range. case_decide as Hzero.
  - subst n. reflexivity.
  - rewrite (proj2 (Z.eqb_neq _ _)) by done.
    rewrite (proj2 (Z.ltb_ge _ _)) by lia.
    assert ((0 - Z.of_nat (length lst) - n - 1) / - n < 1)%Z as Hcount
      by (apply Z.div_lt_upper_bound; lia).
    replace (Z.to_nat _) with 0 by lia. reflexivity.
Qed.

Lemma chunk_list_bad_size_witness :
  chunk_list [1; 2; 3] (-2) = Ok [] ∧ chunk_list [1; 2; 3] 0 = Raise ValueError.
Proof.
  split.
  - exact (chunk_list_bad_size [1; 2; 3] (-2) ltac:(lia)).
  - exact (chunk_list_bad_size [1; 2; 3] 0 ltac:(lia)).
Defined.




(** * More on the register pool *)

(** X5: allocation is idempotent.  Once [allocate_xmm key] has returned a
    register, asking for the same key again returns that register and
    leaves the pool exactly as it was: nothing is popped from the free
    sequence and no binding changes. *)
Theorem allocate_xmm_idempotent (key : string) (ra ra' : RegisterAllocator.t)
    (reg : string) :
  allocate_xmm key ra = Ok (reg, ra') →
  allocate_xmm key ra' = Ok (reg, ra').
Proof. intros Halloc. by apply allocate_xmm_hit, allocate_xmm_bound with ra. Qed.

Lemma allocate_xmm_idempotent_witness :
  ∃ ra', allocate_xmm "x" RegisterAllocator.init = Ok ("xmm0", ra')
         ∧ allocate_xmm "x" ra' = Ok ("xmm0", ra').
Proof.
  eexists. split; [reflexivity|].
  exact (allocate_xmm_idempotent "x" RegisterAllocator.init _ "xmm0" eq_refl).
Defined.

(** * More on the expression visitors *)

Lemma list_index_None (x : string) (l : list string) :
  list_index x l = None ↔ x ∉ l.
Proof.
  induction l as [|y l IH]; simpl.
  - split; [intros _; apply not_elem_of_nil|done].
  - case_decide as Hy.
    + subst y. split; [discriminate|]. intros []. left.
    + rewrite not_elem_of_cons, <- IH.
      destruct (list_index x l); simpl.
      * split; [discriminate|intros [_ ?]; discriminate].
      * split; [intros _; split; [congruence|done]|done].
Qed.

Lemma list_index_NoDup (x : string) (l : list string) (k : nat) :
  NoDup l → l !! k = Some x → list_index x l = Some k.
Proof.
  intros Hnd. revert k. induction Hnd as [|y l Hy Hnd IH]; intros k Hk.
  - by rewrite lookup_nil in Hk.
  - simpl. destruct k as [|k]; simpl in Hk.
    + injection Hk as ->. by rewrite decide_True.
    + rewrite decide_False.
      * by rewrite (IH k Hk).
      * intros ->. apply Hy. by eapply list_elem_of_lookup_2.
Qed.

(** X6: the argument slot of a parameter.  For a parameter list without
    repetition, a name that is no parameter makes [visit_Name] raise
    [ValueError]; the parameter at position [k] is loaded from the k-th
    register of rdi, rsi, rdx, rcx, r8, r9, into the register the pool
    gives for its name; and a parameter at position six or later makes it
    raise [IndexError].  In both error cases the pool is not asked. *)
Theorem visit_Name_argument_slot (id : string) (g : ASMGenerator) :
  NoDup (args g) →
  (id ∉ args g → visit_Name id g = Raise ValueError)
  ∧ ∀ k,
      args g !! k = Some id →
      (length GENERAL_REGS ≤ k → visit_Name id g = Raise IndexError)
      ∧ ∀ slot,
          GENERAL_REGS !! k = Some slot →
          visit_Name id g =
          match allocate_xmm id (reg_alloc g) with
          | Ok (xmm, ra) =>
              Ok (xmm,
                  MkGen (func_name g) (args g)
                    (lines g ++ ["    movq " +:+ xmm +:+ ", " +:+ slot
                                 +:+ "    ; Load argument " +:+ id])
                    ra (loop_count g))
          | Raise e => Raise e
          end.
Proof.
  intros Hnd. split.
  - intros Hid%list_index_None. unfold visit_Name. by rewrite Hid.
  - intros k Hk. unfold visit_Name.
    rewrite (list_index_NoDup _ _ _ Hnd Hk). split.
    + intros Hlen. by rewrite (lookup_ge_None_2 GENERAL_REGS k Hlen).
    + intros slot ->. run_steps. unfold allocate.
      destruct (allocate_xmm id (reg_alloc g)) as [[xmm ra]|e]; reflexivity.
Qed.

Lemma visit_Name_argument_slot_witness :
  visit_Name "g" (ASMGenerator_init "f" ["a"; "b"; "c"; "d"; "e"; "f"; "g"])
  = Raise IndexError
  ∧ visit_Name "c" (ASMGenerator_init "f" ["a"; "b"; "c"])
    = Ok ("xmm0",
          MkGen "f" ["a"; "b"; "c"]
            ["    movq xmm0, rdx    ; Load argument c"]
            {| free_xmm := tail XMM_REGS;
               used_xmm := {[ "c" := "xmm0" ]} |} 0).
Proof.
  split.
  - refine (proj1 (proj2 (visit_Name_argument_slot "g"
              (ASMGenerator_init "f" ["a"; "b"; "c"; "d"; "e"; "f"; "g"]) _)
              6 eq_refl) _); [|simpl; lia].
    apply (bool_decide_unpack (NoDup ["a"; "b"; "c"; "d"; "e"; "f"; "g"])).
    vm_compute. exact I.
  - refine (proj2 (proj2 (visit_Name_argument_slot "c"
              (ASMGenerator_init "f" ["a"; "b"; "c"]) _) 2 eq_refl)
              "rdx" eq_refl).
    apply (bool_decide_unpack (NoDup ["a"; "b"; "c"])). vm_compute. exact I.
Defined.

(** A run of [evaluate_node] that returns has met only parameters with an
    argument register, literals with a bit pattern and the four
    operators. *)
Lemma evaluate_node_Ok_supported (n : node) (g : ASMGenerator) reg g' :
  evaluate_node n g = Ok (reg, g') → supported_expr (args g) n = true.
Proof.
  revert g reg g'. node_induction n; intros g reg g'; try discriminate.
  - rewrite evaluate_node_BinOp. unfold visit_BinOp, visit_BinOp_with.
    intros ([] & g3 & Hop & _)%bind_Ok.
    apply bind_Ok in Hop as (l & g1 & Hl & Hop).
    apply bind_Ok in Hop as (r & g2 & Hr & Hop).
    apply bind_Ok in Hop as (line & g2' & Hline & _).
    simpl. rewrite (IHlhs _ _ _ Hl).
    rewrite <- (ext_args _ _ (preserves_evaluate_node _ _ _ _ Hl)).
    rewrite (IHrhs _ _ _ Hr). destruct op; try reflexivity.
    discriminate Hline.
  - change (evaluate_node (Name id)) with (visit_Name id).
    unfold visit_Name. simpl supported_expr.
    destruct (list_index id (args g)) as [idx|]; [|discriminate].
    destruct (GENERAL_REGS !! idx) as [slot|] eqn:Hslot; [|discriminate].
    intros _. apply bool_decide_eq_true_2.
    exact (lookup_lt_Some GENERAL_REGS idx slot Hslot).
  - change (evaluate_node (Constant value)) with (visit_Constant value).
    unfold visit_Constant. simpl supported_expr.
    destruct (py_format value); [|discriminate].
    intros (xmm & g1 & _ & Hrest)%bind_Ok.
    destruct (float_to_hex value); [reflexivity|discriminate].
Qed.

(** X7: which expressions [evaluate_node] lowers.  From a generator whose
    pool is fully accounted for, [evaluate_node] returns exactly when the
    expression is built from parameters that have an argument register,
    literals that have a bit pattern and the four operators, and its keys
    fit in the pool next to those already bound; for such an expression the
    only error it can raise is the pool-exhaustion error. *)
Theorem evaluate_node_succeeds_iff (n : node) (g : ASMGenerator) :
  pool_count (reg_alloc g) →
  ((∃ reg g', evaluate_node n g = Ok (reg, g')) ↔
   supported_expr (args g) n = true
   ∧ size (dom (used_xmm (reg_alloc g)) ∪ list_to_set (evaluate_keys n))
     ≤ length XMM_REGS)
  ∧ (supported_expr (args g) n = true →
     ∀ e, evaluate_node n g = Raise e →
          e = RuntimeError "Ran out of XMM registers!").
Proof.
  intros Hcount. split; [split|].
  - intros (reg & g' & Hrun).
    pose proof (evaluate_node_Ok_supported _ _ _ _ Hrun) as Hsup.
    split; [exact Hsup|].
    pose proof (runs_within_evaluate_node _ _ Hsup g eq_refl Hcount) as Hfit.
    destruct (decide (size _ ≤ _)); [done|congruence].
  - intros [Hsup Hfit].
    pose proof (runs_within_evaluate_node _ _ Hsup g eq_refl Hcount) as Hrun.
    rewrite decide_True in Hrun by done.
    destruct Hrun as (reg & g' & Hrun & _). eauto.
  - intros Hsup e He.
    pose proof (runs_within_evaluate_node _ _ Hsup g eq_refl Hcount) as Hrun.
    destruct (decide (size _ ≤ _)).
    + destruct Hrun as (reg & g' & Hrun & _). congruence.
    + unfold pool_exhausted in Hrun. congruence.
Qed.

Lemma evaluate_node_succeeds_iff_witness :
  (∃ reg g',
     evaluate_node (BinOp (Name "a") Mult (Constant (CInt 2)))
       (ASMGenerator_init "f" ["a"]) = Ok (reg, g'))
  ∧ ¬ (∃ reg g',
         evaluate_node (BinOp (Name "a") (OtherOp "Pow") (Constant (CInt 2)))
           (ASMGenerator_init "f" ["a"]) = Ok (reg, g')).
Proof.
  split.
  - apply (proj1 (evaluate_node_succeeds_iff
                    (BinOp (Name "a") Mult (Constant (CInt 2)))
                    (ASMGenerator_init "f" ["a"]) init_pool_count)).
    split; [reflexivity|]. vm_compute. lia.
  - intros Hrun.
    apply (proj1 (evaluate_node_succeeds_iff
                    (BinOp (Name "a") (OtherOp "Pow") (Constant (CInt 2)))
                    (ASMGenerator_init "f" ["a"]) init_pool_count))
      in Hrun as [Hsup _].
    discriminate Hsup.
Defined.

(** * More on the statement visitors *)

Lemma appends_bind {A B} c1 l1 c2 l2 (m : M A) (k : A → M B) :
  appends c1 l1 m → (∀ a, appends c2 l2 (k a)) →
  appends (c1 + c2) (l1 + l2) (m ≫= k).
Proof.
  intros Hm Hk g b g' (a & g1 & H1 & H2)%bind_Ok.
  destruct (Hm _ _ _ H1) as [(out1 & Hout1 & Hlen1) Hloop1].
  destruct (Hk _ _ _ _ H2) as [(out2 & Hout2 & Hlen2) Hloop2].
  split; [|lia]. exists (out1 ++ out2).
  rewrite Hout2, Hout1, <- app_assoc, length_app. split; [done|lia].
Qed.

Lemma appends_ret {A} (a : A) : appends 0 0 (mret a).
Proof.
  intros g a' g' [= _ <-]. split; [|lia]. exists []. by rewrite app_nil_r.
Qed.

Lemma appends_raise {A} c l e : appends c l (@raise A e).
Proof. intros g a g' [=]. Qed.

Lemma appends_emit line : appends 1 0 (emit line).
Proof. intros g [] g' [= <-]. simpl. split; [eauto|lia]. Qed.

Lemma appends_next_loop_id : appends 0 1 next_loop_id.
Proof.
  intros g a g' [= _ <-]. simpl. split; [|lia].
  exists []. by rewrite app_nil_r.
Qed.

Lemma appends_get_func_name : appends 0 0 get_func_name.
Proof.
  intros g a g' [= _ <-]. split; [|lia]. exists []. by rewrite app_nil_r.
Qed.

Lemma appends_allocate name : appends 0 0 (allocate name).
Proof.
  intros g reg g'. unfold allocate.
  destruct (allocate_xmm name (reg_alloc g)) as [[r ra]|e];
    intros [= _ <-]. simpl. split; [|lia]. exists []. by rewrite app_nil_r.
Qed.

Lemma appends_eq {A} c l c' l' (m : M A) :
  appends c l m → c = c' → l = l' → appends c' l' m.
Proof. by intros H <- <-. Qed.

(** Counts the lines of a sequence of emissions. *)
Ltac appends_emits :=
  repeat (apply appends_bind; [apply appends_emit|]; intros _);
  first [ apply appends_emit | apply appends_ret ].

Ltac appends_count tac :=
  eapply appends_eq; [ tac | simpl; lia .. ].

(** The two steps every for-statement starts with, then [tac]. *)
Ltac for_leaf tac :=
  appends_count ltac:(
    apply appends_bind; [apply appends_next_loop_id|]; intros ?;
    apply appends_bind; [apply appends_emit|]; intros _; tac).

Lemma appends_generate_prologue : appends 7 0 generate_prologue.
Proof.
  unfold generate_prologue.
  appends_count ltac:(apply appends_bind; [apply appends_get_func_name|];
                      intros name; appends_emits).
Qed.

Lemma appends_generate_epilogue : appends 3 0 generate_epilogue.
Proof. unfold generate_epilogue. appends_count appends_emits. Qed.

Lemma appends_visit_Name id : appends 1 0 (visit_Name id).
Proof.
  intros g a g'. unfold visit_Name.
  destruct (list_index id (args g)) as [idx|]; [|discriminate].
  destruct (GENERAL_REGS !! idx) as [slot|]; [|discriminate].
  revert g a g'.
  appends_count ltac:(apply appends_bind; [apply appends_allocate|];
                      intros xmm; appends_emits).
Qed.

Lemma appends_visit_Constant value : appends 2 0 (visit_Constant value).
Proof.
  unfold visit_Constant.
  destruct (py_format value) as [text|]; [|apply appends_raise].
  appends_count ltac:(apply appends_bind; [apply appends_allocate|];
                      intros xmm; destruct (float_to_hex value);
                      [appends_emits|apply (appends_raise 2 0)]).
Qed.

Lemma appends_binop_to_asm op l r : appends 0 0 (binop_to_asm op l r).
Proof. destruct op; simpl; first [apply appends_ret | apply appends_raise]. Qed.

Lemma appends_visit_BinOp lhs op rhs :
  appends (evaluate_line_count lhs) 0 (evaluate_node lhs) →
  appends (evaluate_line_count rhs) 0 (evaluate_node rhs) →
  appends (evaluate_line_count lhs + evaluate_line_count rhs + 1) 0
    (visit_BinOp lhs op rhs).
Proof.
  intros Hl Hr. unfold visit_BinOp, visit_BinOp_with.
  appends_count ltac:(apply appends_bind; [exact Hl|]; intros l;
                      apply appends_bind; [exact Hr|]; intros r;
                      apply appends_bind; [apply appends_binop_to_asm|];
                      intros line; apply appends_emit).
Qed.

Lemma appends_evaluate_node n :
  appends (evaluate_line_count n) 0 (evaluate_node n).
Proof.
  node_induction n; simpl evaluate_line_count; try apply appends_raise.
  - rewrite evaluate_node_BinOp.
    appends_count ltac:(apply appends_bind;
                        [by apply appends_visit_BinOp|];
                        intros _; apply appends_allocate).
  - apply appends_visit_Name.
  - apply appends_visit_Constant.
Qed.

Lemma appends_visit_each (count loops : node → nat) l :
  Forall (λ n, appends (count n) (loops n) (visit n)) l →
  appends (sum_list (map count l)) (sum_list (map loops l)) (visit_each l).
Proof.
  induction 1 as [|x l Hx _ IH]; simpl; [apply appends_ret|].
  apply appends_bind; [done|]. intros _. exact IH.
Qed.

Lemma appends_visit n :
  appends (visit_line_count n) (visit_loop_count n) (visit n).
Proof.
  node_induction n; rewrite visit_eq.
  - apply appends_visit_each in IHbody.
    appends_count ltac:(apply appends_bind;
                        [apply appends_generate_prologue|]; intros _;
                        apply appends_bind; [exact IHbody|]; intros _;
                        apply appends_generate_epilogue).
  - apply appends_raise.
  - done.
  - apply appends_visit_each in IHtargets.
    appends_count ltac:(apply appends_bind; [exact IHtargets|]; intros _;
                        exact IHvalue).
  - apply appends_visit_each in IHbody. unfold visit_For, visit_For_with.
    destruct target; try (for_leaf ltac:(apply (appends_raise 1 0))).
    destruct iter as [| | | | | | | |func call_args kw| |];
      try (for_leaf ltac:(apply appends_emit)).
    destruct func as [| | | | | |f| | | |];
      try (for_leaf ltac:(apply (appends_raise 1 0))).
    simpl visit_line_count. simpl visit_loop_count.
    destruct call_args as [|range_arg call_args];
      destruct (decide (f = "range")) as [Hf|Hf].
    + for_leaf ltac:(apply (appends_raise 1 0)).
    + for_leaf ltac:(apply appends_emit).
    + destruct (format_operand range_arg) as [n_var|];
        [|for_leaf ltac:(
            apply (appends_raise
                     (5 + sum_list (map visit_line_count body))
                     (sum_list (map visit_loop_count body))))].
      for_leaf ltac:(
        apply appends_bind; [apply appends_emit|]; intros _;
        apply appends_bind; [apply appends_emit|]; intros _;
        apply appends_bind; [exact IHbody|]; intros _;
        apply appends_bind; [apply appends_emit|]; intros _;
        apply appends_bind; [apply appends_emit|]; intros _;
        apply appends_emit).
    + for_leaf ltac:(apply appends_emit).
  - apply appends_visit_each in IHbody, IHorelse.
    appends_count ltac:(apply appends_bind; [exact IHtest|]; intros _;
                        apply appends_bind; [exact IHbody|]; intros _;
                        exact IHorelse).
  - apply appends_visit_BinOp; apply appends_evaluate_node.
  - appends_count ltac:(apply appends_bind; [apply appends_visit_Name|];
                        intros _; apply appends_ret).
  - appends_count ltac:(apply appends_bind; [apply appends_visit_Constant|];
                        intros _; apply appends_ret).
  - apply appends_visit_each in IHargs, IHkeywords.
    appends_count ltac:(apply appends_bind; [exact IHfunc|]; intros _;
                        apply appends_bind; [exact IHargs|]; intros _;
                        exact IHkeywords).
  - by apply appends_visit_each.
  - by apply appends_visit_each.
Qed.

(** X8: every visitor only appends, and by a number of lines that the
    syntax alone fixes.  A run of [visit] that returns keeps the function
    name, the parameters and every line already emitted, and appends
    [visit_line_count n] lines: one per reference to a parameter, two per
    literal, one per binary operation, six around the body of a counted
    loop, two for any other for-statement, ten around a function body.
    Nothing is shared between occurrences and nothing is folded. *)
Theorem visit_appends_counted_lines (n : node) (g g' : ASMGenerator) :
  visit n g = Ok (tt, g') →
  func_name g' = func_name g
  ∧ args g' = args g
  ∧ ∃ out, lines g' = lines g ++ out ∧ length out = visit_line_count n.
Proof.
  intros Hrun. destruct (preserves_visit _ _ _ _ Hrun) as [Hname Hargs _ _ _ _ _].
  destruct (appends_visit _ _ _ _ Hrun) as [Hout _]. auto.
Qed.

Lemma visit_appends_counted_lines_witness :
  ∃ g' out,
    visit (Return (Some (BinOp (Name "a") Add (Name "a"))))
      (ASMGenerator_init "f" ["a"]) = Ok (tt, g')
    ∧ lines g' = [] ++ out ∧ length out = 3.
Proof.
  eexists.
  destruct (visit_appends_counted_lines
              (Return (Some (BinOp (Name "a") Add (Name "a"))))
              (ASMGenerator_init "f" ["a"]) _ ltac:(vm_compute; reflexivity))
    as (_ & _ & out & Hout & Hlen).
  exists out. split; [vm_compute; reflexivity|]. exact (conj Hout Hlen).
Defined.

(** X9: the loop counter counts the for-statements.  A run of [visit] that
    returns advances [loop_count] by the number of for-statements it
    lowered, counted loop or not, and a run of [evaluate_node] leaves it
    as it is; so the ids of the loops of a function are 1, 2, ... in the
    order the loops are met. *)
Theorem loop_counter_counts_for_statements (n : node) (g g' : ASMGenerator) :
  (visit n g = Ok (tt, g') →
   loop_count g' = loop_count g + visit_loop_count n)
  ∧ (∀ reg, evaluate_node n g = Ok (reg, g') → loop_count g' = loop_count g).
Proof.
  split.
  - intros Hrun. by destruct (appends_visit _ _ _ _ Hrun).
  - intros reg Hrun. destruct (appends_evaluate_node _ _ _ _ Hrun). lia.
Qed.

Lemma loop_counter_counts_for_statements_witness :
  ∃ g',
    visit three_loops (ASMGenerator_init "f" ["n"]) = Ok (tt, g')
    ∧ loop_count g' = 0 + 3.
Proof.
  eexists. split; [vm_compute; reflexivity|].
  refine (proj1 (loop_counter_counts_for_statements three_loops
                   (ASMGenerator_init "f" ["n"]) _) _).
  vm_compute. reflexivity.
Defined.

Lemma visit_FunctionDef_eq name params body g :
  visit (FunctionDef name params body) g
  = match visit_each body
            (MkGen (func_name g) (args g)
               (lines g ++ prologue_lines (func_name g))
               (reg_alloc g) (loop_count g)) with
    | Ok (_, g1) =>
        Ok (tt, MkGen (func_name g1) (args g1) (lines g1 ++ epilogue_lines)
                  (reg_alloc g1) (loop_count g1))
    | Raise e => Raise e
    end.
Proof.
  rewrite visit_eq. unfold generate_prologue, generate_epilogue. run_steps.
  rewrite <- !app_assoc. simpl app. unfold prologue_lines.
  destruct (visit_each body _) as [[[] g1]|e]; [|reflexivity].
  rewrite <- !app_assoc. reflexivity.
Qed.

(** X10: the text of a compiled function.  [transpile_to_asm] lowers the
    body after the seven prologue lines and, when the body raises, raises
    the same error and produces no text; otherwise the text is the prologue
    for the function's name, the lines of the body and the three epilogue
    lines, joined by newlines, and it ends with [ret]. *)
Theorem transpile_frames_body
    (name : string) (params : list string) (body : list node) :
  let after_prologue :=
    MkGen name params (prologue_lines name) RegisterAllocator.init 0 in
  transpile_to_asm (FunctionDef name params body)
  = match visit_each body after_prologue with
    | Ok (_, g1) => Ok (String.concat newline (lines g1 ++ epilogue_lines))
    | Raise e => Raise e
    end
  ∧ ∀ g1,
      visit_each body after_prologue = Ok (tt, g1) →
      ∃ body_lines,
        length body_lines = sum_list (map visit_line_count body)
        ∧ transpile_to_asm (FunctionDef name params body)
          = Ok (String.concat newline
                  (prologue_lines name ++ body_lines ++ epilogue_lines)).
Proof.
  intros after_prologue.
  assert (transpile_to_asm (FunctionDef name params body)
          = match visit_each body after_prologue with
            | Ok (_, g1) =>
                Ok (String.concat newline (lines g1 ++ epilogue_lines))
            | Raise e => Raise e
            end) as Heq.
  { unfold transpile_to_asm. rewrite visit_FunctionDef_eq. simpl.
    fold after_prologue.
    destruct (visit_each body after_prologue) as [[[] g1]|e]; reflexivity. }
  split; [exact Heq|].
  intros g1 Hbody. rewrite Heq, Hbody.
  assert (Forall (λ n, appends (visit_line_count n) (visit_loop_count n)
                         (visit n)) body) as Hall
    by (apply Forall_forall; intros n _; apply appends_visit).
  destruct (appends_visit_each _ _ _ Hall _ _ _ Hbody)
    as [(body_lines & Hlines & Hlen) _].
  exists body_lines. split; [exact Hlen|].
  rewrite Hlines. simpl lines. by rewrite <- app_assoc.
Qed.

Lemma transpile_frames_body_witness :
  ∃ body_lines,
    length body_lines = 3
    ∧ transpile_to_asm
        (FunctionDef "add" ["a"; "b"]
           [Return (Some (BinOp (Name "a") Add (Name "b")))])
      = Ok (String.concat newline
              (prologue_lines "add" ++ body_lines ++ epilogue_lines)).
Proof.
  exact (proj2 (transpile_frames_body "add" ["a"; "b"]
                  [Return (Some (BinOp (Name "a") Add (Name "b")))]) _
           ltac:(vm_compute; reflexivity)).
Defined.


Lemma binop_to_asm_Ok op l r g line g' :
  binop_to_asm op l r g = Ok (line, g') →
  g' = g ∧ ∃ mnemonic,
             op_mnemonic op = Some mnemonic
             ∧ line = binop_line mnemonic l r.
Proof.
  destruct op; simpl; try discriminate; intros [= <- <-];
    (split; [reflexivity|]; eexists; split; reflexivity).
Qed.

(** X12: where a binary operation leaves its result.  When
    [evaluate_node] lowers a binary operation whose left operand is a
    parameter, the last line it appends is the scalar-double instruction
    of the operator with the parameter's register as destination and the
    right operand's register as source; the register it returns is the one
    bound to [tmp], which, for a parameter not itself named [tmp], is never
    that destination. *)
Theorem binop_returns_other_register
    (id : string) (op : operator) (rhs : node) (g g' : ASMGenerator)
    (reg : string) :
  pool_inv (reg_alloc g) →
  id ≠ "tmp" →
  evaluate_node (BinOp (Name id) op rhs) g = Ok (reg, g') →
  ∃ dest src mnemonic,
    used_xmm (reg_alloc g') !! id = Some dest
    ∧ op_mnemonic op = Some mnemonic
    ∧ last (lines g') = Some (binop_line mnemonic dest src)
    ∧ used_xmm (reg_alloc g') !! "tmp" = Some reg
    ∧ reg ≠ dest.
Proof.
  intros Hinv Hid. rewrite evaluate_node_BinOp.
  intros ([] & g3 & Hop & Htmp)%bind_Ok.
  unfold visit_BinOp, visit_BinOp_with in Hop.
  apply bind_Ok in Hop as (dest & g1 & Hl & Hop).
  apply bind_Ok in Hop as (src & g2 & Hr & Hop).
  apply bind_Ok in Hop as (line & g2' & Hline & Hemit).
  apply binop_to_asm_Ok in Hline as (-> & mnemonic & Hmn & ->).
  injection Hemit as <-.
  change (evaluate_node (Name id)) with (visit_Name id) in Hl.
  assert (used_xmm (reg_alloc g1) !! id = Some dest) as Hdest.
  { unfold visit_Name in Hl.
    destruct (list_index id (args g)) as [idx|]; [|discriminate].
    destruct (GENERAL_REGS !! idx) as [slot|]; [|discriminate].
    apply bind_Ok in Hl as (xmm & g0 & Halloc & Hrest).
    revert Hrest. run_steps. intros [= -> <-]. simpl.
    unfold allocate in Halloc.
    destruct (allocate_xmm id (reg_alloc g)) as [[r ra]|e] eqn:Hxmm;
      [|discriminate].
    injection Halloc as -> <-. eapply allocate_xmm_bound, Hxmm. }
  pose proof (preserves_visit_Name _ _ _ _ Hl) as Hext1.
  pose proof (preserves_evaluate_node _ _ _ _ Hr) as Hext2.
  pose proof (preserves_allocate _ _ _ _ Htmp) as Hext3.
  cbn [reg_alloc] in Hext3.
  assert (pool_inv (reg_alloc g')) as Hinv'
    by (apply (ext_inv _ _ Hext3), (ext_inv _ _ Hext2),
          (ext_inv _ _ Hext1), Hinv).
  assert (used_xmm (reg_alloc g') !! id = Some dest) as Hdest'.
  { eapply lookup_weaken; [exact Hdest|].
    etrans; [exact (ext_used _ _ Hext2)|exact (ext_used _ _ Hext3)]. }
  assert (used_xmm (reg_alloc g') !! "tmp" = Some reg
          ∧ lines g' = lines g2 ++ [binop_line mnemonic dest src])
    as [Hreg Hlines].
  { unfold allocate in Htmp. cbn [reg_alloc] in Htmp.
    destruct (allocate_xmm "tmp" (reg_alloc g2)) as [[r ra]|e] eqn:Hxmm;
      [|discriminate].
    injection Htmp as -> <-. simpl. split; [|reflexivity].
    eapply allocate_xmm_bound, Hxmm. }
  exists dest, src, mnemonic.
  split; [exact Hdest'|]. split; [exact Hmn|].
  split; [rewrite Hlines; apply last_snoc|]. split; [exact Hreg|].
  intros ->. apply Hid. symmetry.
  exact (inv_injective _ Hinv' _ _ _ Hreg Hdest').
Qed.

Lemma binop_returns_other_register_witness :
  ∃ g' dest,
    evaluate_node (BinOp (Name "a") Add (Name "b"))
      (ASMGenerator_init "add" ["a"; "b"]) = Ok ("xmm2", g')
    ∧ used_xmm (reg_alloc g') !! "a" = Some dest
    ∧ "xmm2" ≠ dest.
Proof.
  eexists.
  destruct (binop_returns_other_register "a" Add (Name "b")
              (ASMGenerator_init "add" ["a"; "b"]) _ "xmm2"
              init_pool_inv ltac:(discriminate)
              ltac:(vm_compute; reflexivity))
    as (dest & src & mnemonic & Hdest & _ & _ & _ & Hne).
  exists dest. split; [vm_compute; reflexivity|]. exact (conj Hdest Hne).
Defined.
